(** * Shamir secret reconstruction: the two programs of the repository

    [main.js] reconstructs the constant term with exact BigInt arithmetic
    ([convertToDecimal], [lagrangeInterpolationAtZero], [parseInput]);
    [shamir.js] does it over a prime field ([mod], [modInverse],
    [decodeYValue], [reconstructSecret], [processTestCase]).

    BigInt values are [Z].  A JavaScript [number] is modelled as an exact
    integer or NaN (the programs only produce numbers through [parseInt];
    rounding above 2^53 and the sign of zero are not modelled).  Strings are
    sequences of code points below 256.  A thrown exception is the [Throw]
    branch of [result]. *)

From Stdlib Require Import ZArith List Lia String Ascii Bool QArith.
From Stdlib Require Import Morphisms Setoid Zquot Permutation Sorted.
Import ListNotations.

Local Open Scope Z_scope.

(** ** Exceptions and the error monad *)

Inductive error : Type :=
| RangeError_NaN            (* BigInt(NaN): not an integer *)
| RangeError_DivisionByZero (* BigInt division or remainder by 0n *)
| SyntaxError_BigInt        (* BigInt(string): not an integer literal *)
| DecodeFailed              (* decodeYValue: Failed to decode value ... *)
| NoSharesProvided          (* reconstructSecret: No shares provided ... *)
| DuplicateX (xj : Z)       (* reconstructSecret: Invalid shares: Duplicate x-coordinate ... *)
| NoModularInverse (a m : Z)(* modInverse: No modular inverse for a modulo m *)
| InvalidN                  (* processTestCase: Invalid 'n' *)
| InvalidK.                 (* processTestCase: Invalid 'k' *)

Inductive result (A : Type) : Type :=
| Ok (a : A)
| Throw (e : error).
Arguments Ok {A} a.
Arguments Throw {A} e.

Definition bind {A B : Type} (r : result A) (f : A -> result B) : result B :=
  match r with
  | Ok a => f a
  | Throw e => Throw e
  end.

Notation "x <- r ;; k" := (bind r (fun x => k))
  (at level 61, r at next level, right associativity).

Definition is_ok {A : Type} (r : result A) : bool :=
  match r with Ok _ => true | Throw _ => false end.

(** ** Numbers, characters and the built-in conversions *)

Inductive number : Type :=
| NaN
| Num (z : Z).

(** [BigInt(number)] throws a RangeError on a non-integer. *)
Definition BigInt_of_number (v : number) : result Z :=
  match v with
  | NaN => Throw RangeError_NaN
  | Num z => Ok z
  end.

(** [ToInt32], applied by [parseInt] to its radix. *)
Definition ToInt32 (v : number) : Z :=
  match v with
  | NaN => 0
  | Num z => let r := z mod 2 ^ 32 in if 2 ^ 31 <=? r then r - 2 ^ 32 else r
  end.

(** StrWhiteSpaceChar below U+0100: TAB, LF, VT, FF, CR, SP, NBSP. *)
Definition is_white_space (c : ascii) : bool :=
  let n := nat_of_ascii c in
  ((9 <=? n) && (n <=? 13))%nat || (n =? 32)%nat || (n =? 160)%nat.

(** The value of a character as a digit: 0-9, then a-z or A-Z for 10-35. *)
Definition digit_value (c : ascii) : option Z :=
  let n := nat_of_ascii c in
  if ((48 <=? n) && (n <=? 57))%nat then Some (Z.of_nat n - 48)
  else if ((97 <=? n) && (n <=? 122))%nat then Some (Z.of_nat n - 87)
  else if ((65 <=? n) && (n <=? 90))%nat then Some (Z.of_nat n - 55)
  else None.

Definition radix_digit (R : Z) (c : ascii) : option Z :=
  match digit_value c with
  | Some d => if d <? R then Some d else None
  | None => None
  end.

Fixpoint drop_white_space (l : list ascii) : list ascii :=
  match l with
  | c :: l' => if is_white_space c then drop_white_space l' else l
  | [] => []
  end.

(** The longest prefix of radix-[R] digits, as their values. *)
Fixpoint digit_prefix (R : Z) (l : list ascii) : list Z :=
  match l with
  | c :: l' =>
      match radix_digit R c with
      | Some d => d :: digit_prefix R l'
      | None => []
      end
  | [] => []
  end.

Definition positional (R : Z) (ds : list Z) : Z :=
  fold_left (fun acc d => acc * R + d) ds 0.

Definition strip_sign (l : list ascii) : Z * list ascii :=
  match l with
  | "-"%char :: l' => (-1, l')
  | "+"%char :: l' => (1, l')
  | _ => (1, l)
  end.

(** [parseInt(string, radix)] on the characters of the string.  The result
    is the exact integer the digits denote.  The real [parseInt] returns a
    double: it agrees with this one as long as the result is at most 2^53 in
    absolute value (and is rounded beyond), which is why the properties of
    [main.js] on arbitrary keys and bases assume [safe_number]. *)
Definition parseInt_chars (l : list ascii) (radix : number) : number :=
  let '(sign, S1) := strip_sign (drop_white_space l) in
  let R := ToInt32 radix in
  if (negb (R =? 0)) && ((R <? 2) || (36 <? R)) then NaN
  else
    let stripPrefix := (R =? 0) || (R =? 16) in
    let R1 := if R =? 0 then 10 else R in
    let '(R2, S2) :=
      match S1 with
      | "0"%char :: "x"%char :: rest
      | "0"%char :: "X"%char :: rest =>
          if stripPrefix then (16, rest) else (R1, S1)
      | _ => (R1, S1)
      end in
    match digit_prefix R2 S2 with
    | [] => NaN
    | ds => Num (sign * positional R2 ds)
    end.

Definition parseInt (s : string) (radix : number) : number :=
  parseInt_chars (list_ascii_of_string s) radix.

(** [parseInt(s)]: the radix is undefined, which [ToInt32] takes to 0. *)
Definition parseInt1 (s : string) : number := parseInt s NaN.

(** All of [l] as radix-[R] digits, at least one. *)
Fixpoint all_digits (R : Z) (l : list ascii) : option (list Z) :=
  match l with
  | [] => Some []
  | c :: l' =>
      match radix_digit R c, all_digits R l' with
      | Some d, Some ds => Some (d :: ds)
      | _, _ => None
      end
  end.

Definition literal_digits (R : Z) (l : list ascii) : option Z :=
  match l with
  | [] => None
  | _ => option_map (positional R) (all_digits R l)
  end.

Definition trim (l : list ascii) : list ascii :=
  rev (drop_white_space (rev (drop_white_space l))).

(** StringToBigInt: white space around nothing (0n), a signed decimal
    literal, or an unsigned 0x, 0o or 0b literal. *)
Definition StringToBigInt (l : list ascii) : option Z :=
  match trim l with
  | [] => Some 0
  | "+"%char :: ds => literal_digits 10 ds
  | "-"%char :: ds => option_map Z.opp (literal_digits 10 ds)
  | "0"%char :: "x"%char :: ds | "0"%char :: "X"%char :: ds => literal_digits 16 ds
  | "0"%char :: "o"%char :: ds | "0"%char :: "O"%char :: ds => literal_digits 8 ds
  | "0"%char :: "b"%char :: ds | "0"%char :: "B"%char :: ds => literal_digits 2 ds
  | ds => literal_digits 10 ds
  end.

(** [BigInt(string)].  The constructor takes one argument: a second one, as
    in [BigInt(valueString, base)], is ignored. *)
Definition BigInt_of_string (s : string) : result Z :=
  match StringToBigInt (list_ascii_of_string s) with
  | Some z => Ok z
  | None => Throw SyntaxError_BigInt
  end.

(** ** main.js: convertToDecimal *)

(** The callback of the [reduce]: [acc * BigInt(base) + BigInt(parseInt(digit, base))]. *)
Definition convert_step (base : number) (acc : Z) (digit : ascii) : result Z :=
  b <- BigInt_of_number base ;;
  d <- BigInt_of_number (parseInt_chars [digit] base) ;;
  Ok (acc * b + d).

Fixpoint reduce_digits (base : number) (digits : list ascii) (acc : Z) : result Z :=
  match digits with
  | [] => Ok acc
  | digit :: rest => acc' <- convert_step base acc digit ;; reduce_digits base rest acc'
  end.

Definition convertToDecimal (value : string) (base : number) : result Z :=
  reduce_digits base (list_ascii_of_string value) 0.

(** ** shamir.js: decodeYValue *)

Definition decodeYValue (valueString : string) (base : Z) : result Z :=
  match BigInt_of_string valueString with
  | Ok v => Ok v
  | Throw _ => Throw DecodeFailed
  end.

(** ** shamir.js: modular arithmetic *)

(** [((n % m) + m) % m]; the BigInt remainder [%] truncates towards zero and
    throws on a zero divisor. *)
Definition mod_ (n m : Z) : result Z :=
  if m =? 0 then Throw RangeError_DivisionByZero
  else Ok (Z.rem (Z.rem n m + m) m).

(** The search [for (let x = 1n; x < m; x++)].  The loop runs while [x < m];
    [fuel] bounds the number of iterations and [m - x] of it is enough
    ([modInverse_loop_fuel]). *)
Fixpoint modInverse_loop (fuel : nat) (a x m : Z) : result Z :=
  match fuel with
  | O => Throw (NoModularInverse a m)
  | S fuel' =>
      if x <? m then
        r <- mod_ (a * x) m ;;
        if r =? 1 then Ok x else modInverse_loop fuel' a (x + 1) m
      else Throw (NoModularInverse a m)
  end.

Definition modInverse (a m : Z) : result Z :=
  a' <- mod_ a m ;;
  modInverse_loop (Z.to_nat (m - 1)) a' 1 m.

(** ** shamir.js: reconstructSecret *)

Record share : Type := mkShare { x : Z; y : Z }.

(** The inner loop over [m], from index [m] on, with [rest] the shares not
    yet visited; it carries [numerator] and [denominator]. *)
Fixpoint inner_loop (rest : list share) (m j : nat) (xj prime : Z)
    (numerator denominator : Z) : result (Z * Z) :=
  match rest with
  | [] => Ok (numerator, denominator)
  | otherShare :: rest' =>
      if (j =? m)%nat then inner_loop rest' (S m) j xj prime numerator denominator
      else
        let xm := x otherShare in
        numerator' <- mod_ (numerator * xm) prime ;;
        diff <- mod_ (xm - xj) prime ;;
        if diff =? 0 then Throw (DuplicateX xj)
        else
          denominator' <- mod_ (denominator * diff) prime ;;
          inner_loop rest' (S m) j xj prime numerator' denominator'
  end.

(** The outer loop over [j], from index [j] on, carrying [secret]. *)
Fixpoint outer_loop (shares rest : list share) (j : nat) (prime secret : Z)
    : result Z :=
  match rest with
  | [] => Ok secret
  | currentShare :: rest' =>
      let xj := x currentShare in
      let yj := y currentShare in
      nd <- inner_loop shares 0 j xj prime 1 1 ;;
      let '(numerator, denominator) := nd in
      inv <- modInverse denominator prime ;;
      term <- mod_ (yj * inv) prime ;;
      term' <- mod_ (term * numerator) prime ;;
      secret' <- mod_ (secret + term') prime ;;
      outer_loop shares rest' (S j) prime secret'
  end.

Definition reconstructSecret (shares : list share) (prime : Z) : result Z :=
  if (List.length shares =? 0)%nat then Throw NoSharesProvided
  else outer_loop shares shares 0 prime 0.

(** ** main.js: lagrangeInterpolationAtZero *)

(** BigInt [/]: truncates towards zero, throws on a zero divisor. *)
Definition bigint_div (a b : Z) : result Z :=
  if b =? 0 then Throw RangeError_DivisionByZero else Ok (Z.quot a b).

(** A point is the pair [[x, y]] pushed by [parseInput]: [x] a number,
    [y] a BigInt. *)
Definition point : Type := (number * Z)%type.

Fixpoint lagrange_inner (rest : list point) (j i : nat) (xi num den : Z)
    : result (Z * Z) :=
  match rest with
  | [] => Ok (num, den)
  | pj :: rest' =>
      if (i =? j)%nat then lagrange_inner rest' (S j) i xi num den
      else
        xj <- BigInt_of_number (fst pj) ;;
        lagrange_inner rest' (S j) i xi (num * - xj) (den * (xi - xj))
  end.

Fixpoint lagrange_outer (points rest : list point) (i : nat) (acc : Z)
    : result Z :=
  match rest with
  | [] => Ok acc
  | pi :: rest' =>
      xi <- BigInt_of_number (fst pi) ;;
      let yi := snd pi in
      nd <- lagrange_inner points 0 i xi 1 1 ;;
      let '(num, den) := nd in
      term <- bigint_div (yi * num) den ;;
      lagrange_outer points rest' (S i) (acc + term)
  end.

Definition lagrangeInterpolationAtZero (points : list point) : result Z :=
  lagrange_outer points points 0 0.

(** ** The parsed input and the two pipelines *)

(** One property of the parsed JSON object other than its header: the key
    and the strings under [base] and [value]. *)
Record raw_share : Type := mkRaw { key : string; base : string; value : string }.

(** The parsed object: [keys.n], [keys.k] and the other properties in the
    order [for (const key in data)] visits them. *)
Record test_case : Type :=
  mkCase { keys_n : Z; keys_k : Z; entries : list raw_share }.

(** [Array.prototype.sort] with a comparator: a stable sort; the comparator
    result NaN counts as 0. *)
Fixpoint insert_by {A : Type} (cmp : A -> A -> Z) (a : A) (l : list A) : list A :=
  match l with
  | [] => [a]
  | b :: l' => if cmp a b <=? 0 then a :: b :: l' else b :: insert_by cmp a l'
  end.

Fixpoint sort_by {A : Type} (cmp : A -> A -> Z) (l : list A) : list A :=
  match l with
  | [] => []
  | a :: l' => insert_by cmp a (sort_by cmp l')
  end.

(** [l.slice(0, k)]. *)
Definition slice0 {A : Type} (k : Z) (l : list A) : list A :=
  let len := Z.of_nat (List.length l) in
  let final := if k <? 0 then Z.max (len + k) 0 else Z.min k len in
  firstn (Z.to_nat final) l.

(** *** main.js *)

Fixpoint parse_loop (es : list raw_share) (points : list point)
    : result (list point) :=
  match es with
  | [] => Ok points
  | e :: rest =>
      if String.eqb (key e) "keys" then parse_loop rest points
      else
        let x := parseInt1 (key e) in
        let base := parseInt1 (base e) in
        y <- convertToDecimal (value e) base ;;
        parse_loop rest (points ++ [(x, y)])
  end.

(** [(a, b) => a[0] - b[0]].  With a NaN key the difference is NaN, which
    the sort takes as 0; the comparator is then inconsistent and the order
    the engine produces is implementation-defined: [sort_by] stands for the
    real sort only on keys that are all numbers. *)
Definition compare_points (a b : point) : Z :=
  match fst a, fst b with
  | Num p, Num q => p - q
  | _, _ => 0
  end.

Definition parseInput (tc : test_case) : result (list point) :=
  points <- parse_loop (entries tc) [] ;;
  Ok (slice0 (keys_k tc) (sort_by compare_points points)).

(** The body of [files.forEach]: the secret that is printed, or the
    exception that ends the program. *)
Definition main_secret (tc : test_case) : result Z :=
  points <- parseInput tc ;;
  lagrangeInterpolationAtZero points.

(** *** shamir.js *)

(** What [processTestCase] reports last: the secret, the insufficient-shares
    error, or the message of a caught exception. *)
Inductive outcome : Type :=
| Reconstructed (secretC : Z)
| InsufficientShares (validShareCount k : Z)
| ErrorProcessing (e : error).

Definition base_in_range (base : number) : option Z :=
  match base with
  | NaN => None
  | Num b => if (b <? 2) || (36 <? b) then None else Some b
  end.

(** The loop over the properties: a share with a bad base or an undecodable
    value is skipped with a warning; [BigInt(key)] may throw. *)
Fixpoint collect_shares (es : list raw_share) (sharesToReconstruct : list share)
    (validShareCount : Z) : result (list share * Z) :=
  match es with
  | [] => Ok (sharesToReconstruct, validShareCount)
  | e :: rest =>
      if String.eqb (key e) "keys"
      then collect_shares rest sharesToReconstruct validShareCount
      else
        x <- BigInt_of_string (key e) ;;
        match base_in_range (parseInt1 (base e)) with
        | None => collect_shares rest sharesToReconstruct validShareCount
        | Some b =>
            match decodeYValue (value e) b with
            | Ok y =>
                collect_shares rest (sharesToReconstruct ++ [mkShare x y])
                  (validShareCount + 1)
            | Throw _ => collect_shares rest sharesToReconstruct validShareCount
            end
        end
  end.

(** [(a, b) => Number(a.x - b.x)]. *)
Definition compare_shares (a b : share) : Z := x a - x b.

Definition processTestCase (tc : test_case) (prime : Z) : outcome :=
  let n := keys_n tc in
  let k := keys_k tc in
  if n <? 1 then ErrorProcessing InvalidN
  else if (k <? 2) || (n <? k) then ErrorProcessing InvalidK
  else
    match collect_shares (entries tc) [] 0 with
    | Throw e => ErrorProcessing e
    | Ok (sharesToReconstruct, validShareCount) =>
        if validShareCount <? k then InsufficientShares validShareCount k
        else
          let sorted := sort_by compare_shares sharesToReconstruct in
          match reconstructSecret (slice0 k sorted) prime with
          | Ok secretC => Reconstructed secretC
          | Throw e => ErrorProcessing e
          end
    end.

(** A share the program counts in [validShareCount]: its base is in range
    and [decodeYValue] returns on its value.  This is the program's own
    count; [decodeYValue] does not look at the base, so it is not the same
    as [decodable] below. *)
Definition survives (e : raw_share) : bool :=
  negb (String.eqb (key e) "keys") &&
  match base_in_range (parseInt1 (base e)) with
  | None => false
  | Some b => is_ok (decodeYValue (value e) b)
  end.

Definition surviving (tc : test_case) : list raw_share :=
  filter survives (entries tc).

Definition sample1 : test_case :=
  mkCase 4 3 [mkRaw "1" "10" "4"; mkRaw "2" "2" "111"; mkRaw "3" "10" "12";
              mkRaw "6" "4" "213"].


(** ** Polynomials and the reference interpolation *)

(** A polynomial is the list of its coefficients, constant term first. *)
Fixpoint peval (cs : list Z) (t : Z) : Z :=
  match cs with
  | [] => 0
  | c :: cs' => c + t * peval cs' t
  end.

Fixpoint padd (p q : list Z) : list Z :=
  match p, q with
  | [], _ => q
  | _, [] => p
  | a :: p', b :: q' => (a + b) :: padd p' q'
  end.

Definition pscale (c : Z) (p : list Z) : list Z := map (Z.mul c) p.

(** [(a - X) * p]. *)
Definition pmul_lin (a : Z) (p : list Z) : list Z :=
  padd (pscale a p) (0 :: pscale (-1) p).

Definition prodZ (l : list Z) : Z := fold_right Z.mul 1 l.

(** [prod (a - X)] over the [a] of [l]. *)
Fixpoint pbasis (l : list Z) : list Z :=
  match l with
  | [] => [1]
  | a :: l' => pmul_lin a (pbasis l')
  end.

(** A share with the weight [c] its term is multiplied by. *)
Definition weighted : Type := (share * Z)%type.

Definition wx (w : weighted) : Z := x (fst w).

(** The sum over the weighted shares [(s_j, c_j)] of [rest] of [c_j] times
    the product of [x_m - t] over the other shares; [pre] holds the
    x-coordinates to the left of [rest]. *)
Fixpoint lag_sum (t : Z) (pre : list Z) (rest : list weighted) : Z :=
  match rest with
  | [] => 0
  | w :: rest' =>
      snd w * prodZ (map (fun xm => xm - t) (pre ++ map wx rest'))
      + lag_sum t (pre ++ [wx w]) rest'
  end.

(** The same sum as a polynomial in [t]. *)
Fixpoint lag_poly (pre : list Z) (rest : list weighted) : list Z :=
  match rest with
  | [] => []
  | w :: rest' =>
      padd (pscale (snd w) (pbasis (pre ++ map wx rest')))
           (lag_poly (pre ++ [wx w]) rest')
  end.

(** Each weight inverts, modulo [p], the product of the differences to the
    other x-coordinates, times the share's [y]. *)
Fixpoint good_weights (p : Z) (pre : list Z) (rest : list weighted) : Prop :=
  match rest with
  | [] => True
  | w :: rest' =>
      (snd w * prodZ (map (fun xm => xm - wx w) (pre ++ map wx rest'))) mod p
        = y (fst w) mod p
      /\ good_weights p (pre ++ [wx w]) rest'
  end.

(** Two x-coordinates at different positions are congruent modulo [p]. *)
Definition collision (p : Z) (xs : list Z) : Prop :=
  exists i j xi xj,
    i <> j /\ nth_error xs i = Some xi /\ nth_error xs j = Some xj /\
    (xi - xj) mod p = 0.

(** The x-coordinates are pairwise distinct modulo [p]. *)
Definition pairwise_distinct_mod (p : Z) (xs : list Z) : Prop :=
  forall i j xi xj,
    i <> j -> nth_error xs i = Some xi -> nth_error xs j = Some xj ->
    (xi - xj) mod p <> 0.

(** Some element of [l] is congruent to [a] modulo [p]. *)
Definition clashes (p a : Z) (l : list Z) : bool :=
  existsb (fun b => (b - a) mod p =? 0) l.

(** No element of [rest] clashes with another element of [pre ++ rest]. *)
Fixpoint clear_from (p : Z) (pre rest : list Z) : bool :=
  match rest with
  | [] => true
  | a :: rest' => negb (clashes p a (pre ++ rest')) && clear_from p (pre ++ [a]) rest'
  end.

(** Each x-coordinate differs, modulo [p], from all those after it. *)
Fixpoint distinct_mod (p : Z) (xs : list Z) : Prop :=
  match xs with
  | [] => True
  | a :: xs' => Forall (fun b => (b - a) mod p <> 0) xs' /\ distinct_mod p xs'
  end.

(** The numerator and the denominator the inner loop leaves when no
    difference is 0. *)
Definition num_of (p : Z) (l : list Z) (num : Z) : Z :=
  fold_left (fun n xm => (n * xm) mod p) l num.

Definition den_of (p xj : Z) (l : list Z) (den : Z) : Z :=
  fold_left (fun d xm => (d * ((xm - xj) mod p)) mod p) l den.

(** The points [(x_i, P(x_i) mod p)] of the polynomial [cs]. *)
Definition shares_of (cs : list Z) (p : Z) (xs : list Z) : list share :=
  map (fun xi => mkShare xi (peval cs xi mod p)) xs.

(** The points [(x_i, P(x_i))] handed to the exact interpolator. *)
Definition points_of (cs : list Z) (xs : list Z) : list point :=
  map (fun xi => (Num xi, peval cs xi)) xs.

(** The list without its element at index [i]. *)
Definition others {A : Type} (i : nat) (l : list A) : list A :=
  firstn i l ++ skipn (S i) l.

(** The reference of the specification: each term
    [y_i * prod (- x_j) / prod (x_i - x_j)] as an exact rational, the terms
    summed as rationals, the total truncated to an integer at the end; a
    zero denominator is the degenerate case. *)
Definition reference_term (xs : list Z) (i : nat) (xi yi : Z) : option Q :=
  let num := prodZ (map Z.opp (others i xs)) in
  let den := prodZ (map (fun xj => xi - xj) (others i xs)) in
  if den =? 0 then None else Some (Qmake (yi * num) 1 / Qmake den 1)%Q.

Fixpoint reference_sum (xs : list Z) (rest : list (Z * Z)) (i : nat) (acc : Q)
    : option Q :=
  match rest with
  | [] => Some acc
  | (xi, yi) :: rest' =>
      match reference_term xs i xi yi with
      | None => None
      | Some t => reference_sum xs rest' (S i) (acc + t)%Q
      end
  end.

Definition rational_reference (points : list (Z * Z)) : option Z :=
  match reference_sum (map fst points) points 0 0%Q with
  | None => None
  | Some total => Some (Z.quot (Qnum total) (Zpos (Qden total)))
  end.

Definition chars (s : string) : list ascii := list_ascii_of_string s.

(** The character is a digit of the base. *)
Definition is_digit_in (b : Z) (c : ascii) : bool :=
  match digit_value c with
  | Some d => d <? b
  | None => false
  end.

Definition digit_or_zero (c : ascii) : Z :=
  match digit_value c with Some d => d | None => 0 end.

(** What the inner loop computes over the x-coordinates it visits. *)
Definition inner_spec (p xj : Z) (l : list Z) (num den : Z) : result (Z * Z) :=
  if clashes p xj l then Throw (DuplicateX xj)
  else Ok (num_of p l num, den_of p xj l den).

(** Congruence modulo [p]. *)
Definition cong (p a b : Z) : Prop := a mod p = b mod p.


(** Points with integer x-coordinates, as [parseInput] produces them from
    numeric keys. *)
Definition int_points (pts : list (Z * Z)) : list point :=
  map (fun q => (Num (fst q), snd q)) pts.

(** The numerator and the denominator of a term of the exact interpolation,
    over the x-coordinates [l] of the other points. *)
Definition num_ex (l : list Z) (num : Z) : Z :=
  fold_left (fun n xj => n * - xj) l num.

Definition den_ex (xi : Z) (l : list Z) (den : Z) : Z :=
  fold_left (fun d xj => d * (xi - xj)) l den.

(** The sum of the truncated terms, from the points [rest] on; [pre] holds
    the x-coordinates to their left. *)
Fixpoint truncated_sum (pre : list Z) (rest : list (Z * Z)) : Z :=
  match rest with
  | [] => 0
  | q :: rest' =>
      Z.quot (snd q * num_ex (pre ++ map fst rest') 1)
             (den_ex (fst q) (pre ++ map fst rest') 1)
      + truncated_sum (pre ++ [fst q]) rest'
  end.

(** The sign [(-1)^(length l)]. *)
Fixpoint alt_sign (l : list Z) : Z :=
  match l with
  | [] => 1
  | _ :: l' => - alt_sign l'
  end.

(** The denominators of all the terms from [rest] on. *)
Fixpoint dens (pre rest : list Z) : list Z :=
  match rest with
  | [] => []
  | a :: rest' => den_ex a (pre ++ rest') 1 :: dens (pre ++ [a]) rest'
  end.

(** Weights over the integers that interpolate [E * P] at the points of
    [rest], for an [E] every denominator divides. *)
Fixpoint exact_ws (E : Z) (P : list Z) (pre rest : list Z) : list weighted :=
  match rest with
  | [] => []
  | a :: rest' =>
      (mkShare a (E * peval P a),
       alt_sign (pre ++ rest') * peval P a * (E / den_ex a (pre ++ rest') 1))
      :: exact_ws E P (pre ++ [a]) rest'
  end.

(** Every term of the exact interpolation divides without remainder. *)
Fixpoint exact_from (P : list Z) (pre rest : list Z) : Prop :=
  match rest with
  | [] => True
  | a :: rest' =>
      (den_ex a (pre ++ rest') 1 | peval P a * num_ex (pre ++ rest') 1)
      /\ exact_from P (pre ++ [a]) rest'
  end.

(** The points [(x_i, P(x_i))] as integer pairs. *)
Definition graph_of (P : list Z) (xs : list Z) : list (Z * Z) :=
  map (fun a => (a, peval P a)) xs.

(** The share one entry contributes to [sharesToReconstruct], when its
    key is a BigInt literal: none for the header, a bad base or an
    undecodable value. *)
Definition entry_share (e : raw_share) : list share :=
  if String.eqb (key e) "keys" then []
  else
    match BigInt_of_string (key e) with
    | Throw _ => []
    | Ok xk =>
        match base_in_range (parseInt1 (base e)) with
        | None => []
        | Some b =>
            match decodeYValue (value e) b with
            | Ok yv => [mkShare xk yv]
            | Throw _ => []
            end
        end
    end.

Definition key_parses_b (e : raw_share) : bool :=
  String.eqb (key e) "keys" || is_ok (BigInt_of_string (key e)).

(** What the click handler of the run button does: it rejects the modulus
    typed, or processes the two test cases with it. *)
Inductive run_report : Type :=
| PrimeRejected
| Processed (report1 report2 : outcome).

Definition runButton_click (primeText : string) (json1 json2 : test_case)
    : run_report :=
  match BigInt_of_string primeText with
  | Throw _ => PrimeRejected
  | Ok selectedPrime =>
      if selectedPrime <=? 2 then PrimeRejected
      else Processed (processTestCase json1 selectedPrime)
                     (processTestCase json2 selectedPrime)
  end.

(** The point one entry contributes to [points] in [main.js], when its
    value decodes: none for the header. *)
Definition entry_point (e : raw_share) : list point :=
  if String.eqb (key e) "keys" then []
  else
    match convertToDecimal (value e) (parseInt1 (base e)) with
    | Ok yv => [(parseInt1 (key e), yv)]
    | Throw _ => []
    end.

Definition value_decodes_b (e : raw_share) : bool :=
  String.eqb (key e) "keys" ||
  is_ok (convertToDecimal (value e) (parseInt1 (base e))).

(** The x-coordinate of a point as an integer (0 for NaN). *)
Definition point_x (q : point) : Z :=
  match fst q with
  | Num z => z
  | NaN => 0
  end.

(** The integers [a, a + 1, ..., a + n - 1]. *)
Fixpoint zrange (a : Z) (n : nat) : list Z :=
  match n with
  | O => []
  | S n' => a :: zrange (a + 1) n'
  end.





(** A number on which the exact integers of this model and the doubles of
    the program agree. *)
Definition safe_number (v : number) : Prop :=
  match v with
  | NaN => True
  | Num z => Z.abs z <= 2 ^ 53
  end.

(** * Properties *)

(** ** The decoders *)

(** C4: [convertToDecimal] decodes the three pinned examples to 7, 10 and
    39; [decodeYValue] drops its base and returns 111 and 213 on the first
    and third and throws on the second. *)
Theorem pinned_decodings :
  convertToDecimal "111" (Num 2) = Ok 7 /\
  convertToDecimal "a" (Num 16) = Ok 10 /\
  convertToDecimal "213" (Num 4) = Ok 39 /\
  decodeYValue "111" 2 = Ok 111 /\
  decodeYValue "a" 16 = Throw DecodeFailed /\
  decodeYValue "213" 4 = Ok 213.
Proof. repeat split; vm_compute; reflexivity. Qed.

(** Within a radix in 2..36, [parseInt] of one character is its digit value
    when that is below the radix, and NaN otherwise. *)
Lemma parseInt_one_char (c : ascii) (b : Z) :
  2 <= b <= 36 ->
  parseInt_chars [c] (Num b) =
    match radix_digit b c with Some d => Num d | None => NaN end.
Proof.
  intros Hb.
  assert (HR : ToInt32 (Num b) = b).
  { unfold ToInt32. rewrite Z.mod_small by lia.
    destruct (2 ^ 31 <=? b) eqn:E; [apply Z.leb_le in E; lia | reflexivity]. }
  unfold parseInt_chars. rewrite HR.
  assert (E0 : (b =? 0) = false) by (apply Z.eqb_neq; lia).
  assert (E1 : (b <? 2) = false) by (apply Z.ltb_ge; lia).
  assert (E2 : (36 <? b) = false) by (apply Z.ltb_ge; lia).
  rewrite E0, E1, E2. cbn [negb andb orb].
  destruct (is_white_space c) eqn:Ews.
  - (* white space: nothing is left, and it is no digit either *)
    assert (Hd : digit_value c = None).
    { revert Ews. destruct c as [[] [] [] [] [] [] [] []]; vm_compute; congruence. }
    unfold radix_digit. rewrite Hd. cbn. rewrite Ews. cbn.
    destruct (b =? 16); reflexivity.
  - cbn [drop_white_space]. rewrite Ews.
    destruct (Ascii.eqb c "-") eqn:Em; [apply Ascii.eqb_eq in Em; subst c; cbn;
      destruct (b =? 16); reflexivity|].
    destruct (Ascii.eqb c "+") eqn:Ep; [apply Ascii.eqb_eq in Ep; subst c; cbn;
      destruct (b =? 16); reflexivity|].
    assert (Hs : strip_sign [c] = (1, [c])).
    { revert Em Ep. destruct c as [[] [] [] [] [] [] [] []]; vm_compute; congruence. }
    rewrite Hs.
    assert (Hm : forall (P : Z * list ascii),
               match [c] with
               | "0"%char :: "x"%char :: rest | "0"%char :: "X"%char :: rest =>
                   if (false || (b =? 16))%bool then (16, rest) else P
               | _ => P
               end = P).
    { intros P. destruct c as [[] [] [] [] [] [] [] []]; reflexivity. }
    rewrite Hm. cbn [digit_prefix].
    destruct (radix_digit b c) as [d|]; [|reflexivity].
    unfold positional. cbn [fold_left]. f_equal. lia.
Qed.

Lemma radix_digit_spec (b : Z) (c : ascii) :
  radix_digit b c = if is_digit_in b c then Some (digit_or_zero c) else None.
Proof.
  unfold radix_digit, is_digit_in, digit_or_zero.
  destruct (digit_value c) as [d|]; reflexivity.
Qed.

Lemma reduce_digits_spec (b : Z) (l : list ascii) (acc : Z) :
  2 <= b <= 36 ->
  reduce_digits (Num b) l acc =
    if forallb (is_digit_in b) l
    then Ok (fold_left (fun a d => a * b + d) (map digit_or_zero l) acc)
    else Throw RangeError_NaN.
Proof.
  intros Hb. revert acc.
  induction l as [|c l IH]; intros acc; [reflexivity|].
  cbn [reduce_digits forallb map fold_left].
  unfold convert_step. cbn [BigInt_of_number bind].
  rewrite parseInt_one_char by exact Hb.
  rewrite radix_digit_spec.
  destruct (is_digit_in b c); cbn; [apply IH | reflexivity].
Qed.

(** C5, against the claim: [convertToDecimal] on the empty string returns 0
    where the claim has it fail. *)
Lemma convertToDecimal_empty_succeeds :
  2 <= 10 <= 36 /\ convertToDecimal "" (Num 10) = Ok 0.
Proof. split; [lia | reflexivity]. Qed.

(** C5, as amended: for a base in 2..36, [convertToDecimal] throws exactly
    when some character of the string is not a digit below the base;
    otherwise, the empty string included, it returns the positional value
    of the digits (0 for the empty string). *)
Theorem convertToDecimal_fails_iff (s : string) (b : Z) :
  2 <= b <= 36 ->
  convertToDecimal s (Num b) =
    if forallb (is_digit_in b) (chars s)
    then Ok (positional b (map digit_or_zero (chars s)))
    else Throw RangeError_NaN.
Proof.
  intros Hb. unfold convertToDecimal, positional, chars.
  apply reduce_digits_spec; exact Hb.
Qed.

Lemma convertToDecimal_fails_iff_witness :
  2 <= 4 <= 36 /\
  convertToDecimal "218" (Num 4) =
    if forallb (is_digit_in 4) (chars "218")
    then Ok (positional 4 (map digit_or_zero (chars "218")))
    else Throw RangeError_NaN.
Proof. split; [lia | apply (convertToDecimal_fails_iff "218" 4); lia]. Defined.

(** ** Modular arithmetic *)

Lemma mod_pos (n m : Z) : 0 < m -> mod_ n m = Ok (n mod m).
Proof.
  intros Hm. unfold mod_.
  destruct (Z.eqb_spec m 0) as [E|_]; [lia|]. f_equal.
  pose proof (Z.rem_bound_abs n m ltac:(lia)) as Hb.
  rewrite Z.rem_mod_nonneg by lia.
  pose proof (Z.quot_rem' n m) as Hq.
  replace (Z.rem n m + m) with (n + (1 - n ÷ m) * m) by lia.
  apply Z_mod_plus_full.
Qed.

Lemma mod_zero (n : Z) : mod_ n 0 = Throw RangeError_DivisionByZero.
Proof. reflexivity. Qed.

(** More fuel than the distance to [m] changes nothing. *)
Lemma modInverse_loop_fuel (f1 f2 : nat) (a x m : Z) :
  (Z.to_nat (m - x) <= f1)%nat -> (Z.to_nat (m - x) <= f2)%nat ->
  modInverse_loop f1 a x m = modInverse_loop f2 a x m.
Proof.
  revert f2 x. induction f1 as [|f1 IH]; intros f2 x H1 H2.
  - destruct f2 as [|f2]; [reflexivity|]. cbn.
    destruct (Z.ltb_spec x m); [lia | reflexivity].
  - destruct f2 as [|f2]; cbn.
    + destruct (Z.ltb_spec x m); [lia | reflexivity].
    + destruct (Z.ltb_spec x m); [|reflexivity].
      destruct (mod_ (a * x) m) as [r|e]; cbn; [|reflexivity].
      destruct (r =? 1); [reflexivity|]. apply IH; lia.
Qed.

Lemma modInverse_loop_found (fuel : nat) (a x m x0 : Z) :
  0 < m -> x <= x0 < m -> (a * x0) mod m = 1 ->
  (Z.to_nat (m - x) <= fuel)%nat ->
  exists r, modInverse_loop fuel a x m = Ok r /\ x <= r < m /\ (a * r) mod m = 1.
Proof.
  intros Hm. revert x. induction fuel as [|fuel IH]; intros x Hx H1 Hf; [lia|].
  cbn. destruct (Z.ltb_spec x m); [|lia].
  rewrite mod_pos by exact Hm. cbn.
  destruct (Z.eqb_spec ((a * x) mod m) 1) as [E|E].
  - exists x. repeat split; [lia | lia | exact E].
  - assert (x <> x0) by (intros ->; contradiction).
    destruct (IH (x + 1)) as (r & Hr & Hrange & Hinv); [lia | exact H1 | lia |].
    exists r. repeat split; [exact Hr | lia | lia | exact Hinv].
Qed.

Lemma modInverse_loop_none (fuel : nat) (a x m : Z) :
  0 < m -> (forall x0, x <= x0 < m -> (a * x0) mod m <> 1) ->
  modInverse_loop fuel a x m = Throw (NoModularInverse a m).
Proof.
  intros Hm. revert x. induction fuel as [|fuel IH]; intros x Hno; [reflexivity|].
  cbn. destruct (Z.ltb_spec x m); [|reflexivity].
  rewrite mod_pos by exact Hm. cbn.
  destruct (Z.eqb_spec ((a * x) mod m) 1) as [E|E].
  - exfalso. apply (Hno x); [lia | exact E].
  - apply IH. intros x0 Hx0. apply Hno. lia.
Qed.

(** In a prime field every nonzero residue has an inverse in [1, p). *)
Lemma prime_inverse_exists (p a : Z) :
  Z.prime p -> a mod p <> 0 ->
  exists x0, 1 <= x0 < p /\ (a * x0) mod p = 1.
Proof.
  intros Hp Ha.
  pose proof (Z.prime_ge_2 p Hp) as Hp2.
  assert (Hrel : Z.coprime p a).
  { apply Z.coprime_prime_l; [exact Hp|].
    intros Hdiv. apply Ha. apply Z.mod_divide; [lia | exact Hdiv]. }
  destruct (Z.Bezout_coprime _ _ Hrel) as (u & v & Huv).
  assert (Hinv : (a * (v mod p)) mod p = 1).
  { rewrite Z.mul_mod_idemp_r by lia.
    replace (a * v) with (1 + (- u) * p) by lia.
    rewrite Z_mod_plus_full. apply Z.mod_small. lia. }
  exists (v mod p). split; [|exact Hinv].
  pose proof (Z.mod_pos_bound v p ltac:(lia)) as Hb.
  assert (v mod p <> 0).
  { intros E. rewrite E, Z.mul_0_r, Z.mod_0_l in Hinv by lia. lia. }
  lia.
Qed.

Lemma modInverse_prime (p a : Z) :
  Z.prime p -> a mod p <> 0 ->
  exists r, modInverse a p = Ok r /\ 1 <= r < p /\ (a * r) mod p = 1.
Proof.
  intros Hp Ha.
  pose proof (Z.prime_ge_2 p Hp) as Hp2.
  unfold modInverse. rewrite mod_pos by lia. cbn.
  destruct (prime_inverse_exists p a Hp Ha) as (x0 & Hx0 & Hinv).
  destruct (modInverse_loop_found (Z.to_nat (p - 1)) (a mod p) 1 p x0)
    as (r & Hr & Hrange & Hr1); [lia | lia | | lia |].
  - rewrite Z.mul_mod_idemp_l by lia. exact Hinv.
  - exists r. repeat split; [exact Hr | lia | lia |].
    rewrite Z.mul_mod_idemp_l in Hr1 by lia. exact Hr1.
Qed.

(** C7: for a prime [p], [modInverse a p] with [1 <= a < p] returns an [r]
    with [(a * r) mod p = 1]; and when [a] is congruent to 0 modulo [p] it
    throws the no-modular-inverse error instead of returning. *)
Theorem modInverse_correct (p : Z) :
  Z.prime p ->
  (forall a, 1 <= a < p ->
     exists r, modInverse a p = Ok r /\ (a * r) mod p = 1) /\
  (forall a, a mod p = 0 -> modInverse a p = Throw (NoModularInverse 0 p)).
Proof.
  intros Hp. pose proof (Z.prime_ge_2 p Hp) as Hp2. split.
  - intros a Ha.
    destruct (modInverse_prime p a Hp) as (r & Hr & _ & Hinv).
    + rewrite Z.mod_small; lia.
    + exists r. split; assumption.
  - intros a Ha. unfold modInverse. rewrite mod_pos by lia. cbn. rewrite Ha.
    apply modInverse_loop_none; [lia|].
    intros x0 _. rewrite Z.mul_0_l, Z.mod_0_l; lia.
Qed.

Lemma prime_7 : Z.prime 7.
Proof.
  split; [lia|]. intros n Hn [q Hq].
  assert (n = 2 \/ n = 3 \/ n = 4 \/ n = 5 \/ n = 6) as H by lia.
  destruct H as [->|[->|[->|[->| ->]]]]; lia.
Defined.

Lemma modInverse_correct_witness :
  Z.prime 7 /\
  (exists r, modInverse 3 7 = Ok r /\ (3 * r) mod 7 = 1) /\
  modInverse 14 7 = Throw (NoModularInverse 0 7).
Proof.
  destruct (modInverse_correct 7 prime_7) as [Hinv Hzero].
  split; [exact prime_7|].
  split; [apply Hinv; lia | apply Hzero; reflexivity].
Defined.

(** ** The modular interpolation: errors and range *)

(** C10: on an empty share list [reconstructSecret] throws the
    no-shares-provided error, whatever the modulus. *)
Theorem reconstructSecret_empty (prime : Z) :
  reconstructSecret [] prime = Throw NoSharesProvided.
Proof. reflexivity. Qed.

Lemma outer_loop_range (shares rest : list share) (j : nat) (m secret r : Z) :
  0 < m -> 0 <= secret < m ->
  outer_loop shares rest j m secret = Ok r -> 0 <= r < m.
Proof.
  intros Hm. revert j secret.
  induction rest as [|s rest IH]; intros j secret Hs H; cbn in H.
  - injection H as <-. exact Hs.
  - destruct (inner_loop shares 0 j (x s) m 1 1) as [[num den]|e]; cbn in H;
      [|discriminate].
    destruct (modInverse den m) as [inv|e]; cbn in H; [|discriminate].
    repeat (rewrite mod_pos in H by exact Hm; cbn [bind] in H).
    apply IH in H; [exact H|]. apply Z.mod_pos_bound. exact Hm.
Qed.

(** C9: for a modulus [m > 0], every [mod] reduction returns the
    representative in [0, m), and a value returned by [reconstructSecret]
    lies in [0, m). *)
Theorem reconstructSecret_in_range (m : Z) :
  0 < m ->
  (forall n, exists r, mod_ n m = Ok r /\ 0 <= r < m) /\
  (forall shares r, reconstructSecret shares m = Ok r -> 0 <= r < m).
Proof.
  intros Hm. split.
  - intros n. exists (n mod m). split; [apply mod_pos; exact Hm|].
    apply Z.mod_pos_bound. exact Hm.
  - intros shares r H. unfold reconstructSecret in H.
    destruct (List.length shares =? 0)%nat; [discriminate|].
    apply (outer_loop_range shares shares 0 m 0 r Hm); [lia | exact H].
Qed.

Lemma reconstructSecret_in_range_witness :
  0 < 13 /\
  (exists r, mod_ (-5) 13 = Ok r /\ 0 <= r < 13) /\
  reconstructSecret [mkShare 1 4; mkShare 2 7; mkShare 3 12] 13 = Ok 3 /\
  0 <= 3 < 13.
Proof.
  assert (Hm : 0 < 13) by lia.
  destruct (reconstructSecret_in_range 13 Hm) as [Hmod Hrec].
  assert (H : reconstructSecret [mkShare 1 4; mkShare 2 7; mkShare 3 12] 13 = Ok 3)
    by (vm_compute; reflexivity).
  split; [exact Hm|]. split; [apply Hmod|]. split; [exact H|].
  exact (Hrec _ _ H).
Defined.

(** *** The inner loop *)

Lemma inner_spec_cons (p xj a : Z) (l : list Z) (num den : Z) :
  inner_spec p xj (a :: l) num den =
    if (a - xj) mod p =? 0 then Throw (DuplicateX xj)
    else inner_spec p xj l ((num * a) mod p) ((den * ((a - xj) mod p)) mod p).
Proof.
  unfold inner_spec, clashes. cbn [existsb num_of den_of fold_left].
  destruct ((a - xj) mod p =? 0); reflexivity.
Qed.

Lemma inner_loop_step (s : share) (rest : list share) (m j : nat)
    (xj p num den : Z) :
  0 < p -> j <> m ->
  inner_loop (s :: rest) m j xj p num den =
    if (x s - xj) mod p =? 0 then Throw (DuplicateX xj)
    else inner_loop rest (S m) j xj p ((num * x s) mod p)
           ((den * ((x s - xj) mod p)) mod p).
Proof.
  intros Hp Hj. cbn [inner_loop].
  destruct (Nat.eqb_spec j m) as [E|_]; [contradiction|].
  rewrite !mod_pos by exact Hp. cbn [bind].
  destruct ((x s - xj) mod p =? 0); [reflexivity|].
  rewrite mod_pos by exact Hp. reflexivity.
Qed.

(** Past index [j] the loop skips nothing. *)
Lemma inner_loop_past (rest : list share) (m j : nat) (xj p num den : Z) :
  0 < p -> (j < m)%nat ->
  inner_loop rest m j xj p num den = inner_spec p xj (map x rest) num den.
Proof.
  intros Hp. revert m num den.
  induction rest as [|s rest IH]; intros m num den Hj; [reflexivity|].
  rewrite inner_loop_step by (try exact Hp; lia).
  cbn [map]. rewrite inner_spec_cons.
  destruct ((x s - xj) mod p =? 0); [reflexivity|]. apply IH. lia.
Qed.

(** The loop visits every share but the one at index [j]. *)
Lemma inner_loop_skips (pre post : list share) (s : share) (m : nat)
    (xj p num den : Z) :
  0 < p ->
  inner_loop (pre ++ s :: post) m (m + List.length pre) xj p num den =
    inner_spec p xj (map x (pre ++ post)) num den.
Proof.
  intros Hp. revert m num den.
  induction pre as [|a pre IH]; intros m num den.
  - cbn [app List.length]. rewrite Nat.add_0_r. cbn [inner_loop].
    rewrite Nat.eqb_refl. apply inner_loop_past; [exact Hp | lia].
  - cbn [app List.length map].
    rewrite inner_loop_step by (try exact Hp; lia).
    rewrite inner_spec_cons.
    destruct ((x a - xj) mod p =? 0); [reflexivity|].
    replace (m + S (List.length pre))%nat with (S m + List.length pre)%nat by lia.
    apply IH.
Qed.

(** *** Congruences *)

#[global] Instance cong_equiv (p : Z) : Equivalence (cong p).
Proof.
  split; unfold cong; [intros a | intros a b H | intros a b c H1 H2]; congruence.
Qed.

#[global] Instance cong_add (p : Z) : Proper (cong p ==> cong p ==> cong p) Z.add.
Proof.
  intros a a' Ha b b' Hb. unfold cong in *.
  rewrite (Zplus_mod a b), (Zplus_mod a' b'), Ha, Hb. reflexivity.
Qed.

#[global] Instance cong_sub (p : Z) : Proper (cong p ==> cong p ==> cong p) Z.sub.
Proof.
  intros a a' Ha b b' Hb. unfold cong in *.
  rewrite (Zminus_mod a b), (Zminus_mod a' b'), Ha, Hb. reflexivity.
Qed.

#[global] Instance cong_mul (p : Z) : Proper (cong p ==> cong p ==> cong p) Z.mul.
Proof.
  intros a a' Ha b b' Hb. unfold cong in *.
  rewrite (Zmult_mod a b), (Zmult_mod a' b'), Ha, Hb. reflexivity.
Qed.

Lemma cong_mod (p a : Z) : cong p (a mod p) a.
Proof. unfold cong. apply Zmod_mod. Qed.

Lemma cong_zero_divide (p a : Z) : p <> 0 -> (cong p a 0 <-> (p | a)).
Proof.
  intros Hp. unfold cong. rewrite Z.mod_0_l by exact Hp.
  apply Z.mod_divide. exact Hp.
Qed.

Lemma mul_mod_nonzero (p a b : Z) :
  Z.prime p -> a mod p <> 0 -> b mod p <> 0 -> (a * b) mod p <> 0.
Proof.
  intros Hp Ha Hb H. pose proof (Z.prime_ge_2 p Hp) as Hp2.
  apply Z.mod_divide in H; [|lia].
  apply Z.divide_prime_mul in H; [|exact Hp].
  destruct H as [H|H]; apply Z.mod_divide in H; try lia; contradiction.
Qed.

Lemma num_of_cong (p : Z) (l : list Z) (num : Z) :
  cong p (num_of p l num) (num * prodZ l).
Proof.
  revert num. induction l as [|a l IH]; intros num; cbn [num_of fold_left prodZ fold_right].
  - rewrite Z.mul_1_r. reflexivity.
  - fold (num_of p l ((num * a) mod p)). fold (prodZ l).
    rewrite IH, cong_mod. apply (f_equal (fun z => z mod p)). ring.
Qed.

Lemma den_of_cong (p xj : Z) (l : list Z) (den : Z) :
  cong p (den_of p xj l den) (den * prodZ (map (fun xm => xm - xj) l)).
Proof.
  revert den. induction l as [|a l IH]; intros den;
    cbn [den_of fold_left prodZ fold_right map].
  - rewrite Z.mul_1_r. reflexivity.
  - fold (den_of p xj l ((den * ((a - xj) mod p)) mod p)).
    fold (prodZ (map (fun xm => xm - xj) l)).
    rewrite IH, !cong_mod. apply (f_equal (fun z => z mod p)). ring.
Qed.

Lemma den_of_nonzero (p xj : Z) (l : list Z) (den : Z) :
  Z.prime p -> clashes p xj l = false -> den mod p <> 0 ->
  den_of p xj l den mod p <> 0.
Proof.
  intros Hp. revert den. induction l as [|a l IH]; intros den Hc Hd; [exact Hd|].
  cbn [clashes existsb] in Hc. apply orb_false_elim in Hc as [Ha Hc].
  apply Z.eqb_neq in Ha.
  cbn [den_of fold_left]. apply IH; [exact Hc|].
  rewrite Zmod_mod. apply mul_mod_nonzero; [exact Hp | exact Hd |].
  rewrite Zmod_mod. exact Ha.
Qed.

(** *** The outer loop *)

Lemma snoc_app {A : Type} (pre : list A) (s : A) (rest : list A) :
  pre ++ s :: rest = (pre ++ [s]) ++ rest.
Proof. rewrite <- app_assoc. reflexivity. Qed.

Lemma length_snoc {A : Type} (pre : list A) (s : A) :
  S (List.length pre) = List.length (pre ++ [s]).
Proof. rewrite length_app. cbn. lia. Qed.

(** One iteration on a share that clashes with no other. *)
Lemma outer_step (p : Z) (pre rest : list share) (s : share) (secret : Z) :
  Z.prime p ->
  clashes p (x s) (map x (pre ++ rest)) = false ->
  exists inv,
    (den_of p (x s) (map x (pre ++ rest)) 1 * inv) mod p = 1 /\
    outer_loop (pre ++ s :: rest) (s :: rest) (List.length pre) p secret =
    outer_loop (pre ++ s :: rest) rest (S (List.length pre)) p
      ((secret + ((y s * inv) mod p * num_of p (map x (pre ++ rest)) 1) mod p) mod p).
Proof.
  intros Hp Hc. pose proof (Z.prime_ge_2 p Hp) as Hp2.
  destruct (modInverse_prime p (den_of p (x s) (map x (pre ++ rest)) 1) Hp)
    as (inv & Hinv & _ & Hone).
  { apply den_of_nonzero; [exact Hp | exact Hc |]. rewrite Z.mod_1_l; lia. }
  exists inv. split; [exact Hone|].
  cbn [outer_loop].
  rewrite (inner_loop_skips pre rest s 0) by lia.
  unfold inner_spec. rewrite Hc. cbn [bind]. rewrite Hinv. cbn [bind].
  rewrite !mod_pos by lia. cbn [bind]. rewrite mod_pos by lia. cbn [bind].
  rewrite mod_pos by lia. reflexivity.
Qed.

(** One iteration on a share that clashes with another. *)
Lemma outer_step_clash (p : Z) (pre rest : list share) (s : share) (secret : Z) :
  0 < p ->
  clashes p (x s) (map x (pre ++ rest)) = true ->
  outer_loop (pre ++ s :: rest) (s :: rest) (List.length pre) p secret =
    Throw (DuplicateX (x s)).
Proof.
  intros Hp Hc. cbn [outer_loop].
  rewrite (inner_loop_skips pre rest s 0) by exact Hp.
  unfold inner_spec. rewrite Hc. reflexivity.
Qed.

Lemma outer_loop_clear (p : Z) (rest pre : list share) (secret : Z) :
  Z.prime p ->
  clear_from p (map x pre) (map x rest) = true ->
  exists r ws,
    outer_loop (pre ++ rest) rest (List.length pre) p secret = Ok r /\
    map fst ws = rest /\
    good_weights p (map x pre) ws /\
    cong p r (secret + lag_sum 0 (map x pre) ws).
Proof.
  intros Hp. pose proof (Z.prime_ge_2 p Hp) as Hp2. revert pre secret.
  induction rest as [|s rest IH]; intros pre secret Hclear.
  - exists secret, []. cbn. repeat split. rewrite Z.add_0_r. reflexivity.
  - cbn [map clear_from] in Hclear.
    apply andb_prop in Hclear as [Hc Hclear].
    apply negb_true_iff in Hc. rewrite <- map_app in Hc.
    destruct (outer_step p pre rest s secret Hp Hc) as (inv & Hinv & Hstep).
    rewrite Hstep, (snoc_app pre s rest), (length_snoc pre s).
    set (secret' := (secret + _) mod p).
    destruct (IH (pre ++ [s]) secret') as (r & ws & Hr & Hws & Hgood & Hcong).
    { rewrite map_app. exact Hclear. }
    assert (Hwx : map wx ws = map x rest).
    { rewrite <- Hws, map_map. reflexivity. }
    exists r, ((s, y s * inv) :: ws). split; [exact Hr|].
    split; [cbn; rewrite Hws; reflexivity|].
    rewrite map_app in Hgood, Hcong. cbn [map] in Hgood, Hcong.
    split.
    + cbn [good_weights fst snd]. unfold wx at 1 3. cbn [fst].
      split; [|exact Hgood].
      rewrite Hwx, <- map_app.
      change (cong p (y s * inv * prodZ (map (fun xm => xm - x s) (map x (pre ++ rest))))
                     (y s)).
      pose proof (den_of_cong p (x s) (map x (pre ++ rest)) 1) as Hden.
      rewrite Z.mul_1_l in Hden.
      rewrite <- Z.mul_assoc, <- Hden, (Z.mul_comm inv).
      assert (H1 : cong p (den_of p (x s) (map x (pre ++ rest)) 1 * inv) 1).
      { unfold cong. rewrite Hinv, Z.mod_1_l; lia. }
      rewrite H1, Z.mul_1_r. reflexivity.
    + cbn [lag_sum fst snd]. unfold wx at 2. cbn [fst].
      rewrite Hcong. unfold secret'. rewrite cong_mod, cong_mod, cong_mod.
      rewrite num_of_cong, Z.mul_1_l, Hwx, <- map_app.
      replace (map (fun xm => xm - 0) (map x (pre ++ rest))) with (map x (pre ++ rest)).
      * apply (f_equal (fun z => z mod p)). ring.
      * rewrite <- (map_id (map x (pre ++ rest))) at 1.
        apply map_ext. intros a. lia.
Qed.

Lemma outer_loop_clash (p : Z) (rest pre : list share) (secret : Z) :
  Z.prime p ->
  clear_from p (map x pre) (map x rest) = false ->
  exists xj,
    outer_loop (pre ++ rest) rest (List.length pre) p secret = Throw (DuplicateX xj).
Proof.
  intros Hp. pose proof (Z.prime_ge_2 p Hp) as Hp2. revert pre secret.
  induction rest as [|s rest IH]; intros pre secret Hclear; [discriminate|].
  cbn [map clear_from] in Hclear. rewrite <- map_app in Hclear.
  destruct (clashes p (x s) (map x (pre ++ rest))) eqn:Hc.
  - exists (x s). apply outer_step_clash; [lia | exact Hc].
  - cbn [negb andb] in Hclear.
    destruct (outer_step p pre rest s secret Hp Hc) as (inv & _ & Hstep).
    rewrite Hstep, (snoc_app pre s rest), (length_snoc pre s).
    apply IH. rewrite map_app. exact Hclear.
Qed.

(** *** Clashes and collisions *)

Lemma clashes_false (p a : Z) (l : list Z) :
  clashes p a l = false -> Forall (fun b => (b - a) mod p <> 0) l.
Proof.
  induction l as [|b l IH]; intros H; [constructor|].
  cbn [clashes existsb] in H. apply orb_false_elim in H as [Hb H].
  constructor; [apply Z.eqb_neq; exact Hb | apply IH; exact H].
Qed.

Lemma clashes_true (p a : Z) (l : list Z) :
  clashes p a l = true -> exists b, In b l /\ (b - a) mod p = 0.
Proof.
  unfold clashes. rewrite existsb_exists. intros (b & Hin & Hb).
  exists b. split; [exact Hin | apply Z.eqb_eq; exact Hb].
Qed.

Lemma clear_from_true (p : Z) (rest pre r1 r2 : list Z) (a : Z) :
  clear_from p pre rest = true -> rest = r1 ++ a :: r2 ->
  Forall (fun b => (b - a) mod p <> 0) (pre ++ r1 ++ r2).
Proof.
  revert pre r1. induction rest as [|a0 rest IH]; intros pre r1 Hclear Hsplit.
  - destruct r1; discriminate.
  - cbn [clear_from] in Hclear. apply andb_prop in Hclear as [Hc Hclear].
    apply negb_true_iff in Hc.
    destruct r1 as [|a1 r1]; cbn [app] in Hsplit; injection Hsplit as -> ->.
    + apply clashes_false. exact Hc.
    + specialize (IH (pre ++ [a1]) r1 Hclear eq_refl).
      rewrite <- app_assoc in IH. exact IH.
Qed.

Lemma clear_from_false (p : Z) (rest pre : list Z) :
  clear_from p pre rest = false ->
  exists r1 a r2 b,
    rest = r1 ++ a :: r2 /\ In b (pre ++ r1 ++ r2) /\ (b - a) mod p = 0.
Proof.
  revert pre. induction rest as [|a0 rest IH]; intros pre Hclear; [discriminate|].
  cbn [clear_from] in Hclear.
  destruct (clashes p a0 (pre ++ rest)) eqn:Hc.
  - apply clashes_true in Hc as (b & Hin & Hb).
    exists [], a0, rest, b. repeat split; assumption.
  - cbn [negb andb] in Hclear.
    destruct (IH _ Hclear) as (r1 & a & r2 & b & -> & Hin & Hb).
    exists (a0 :: r1), a, r2, b. split; [reflexivity|].
    split; [|exact Hb]. rewrite <- app_assoc in Hin. exact Hin.
Qed.

(** An element of the list around position [length r1] sits at another index. *)
Lemma in_others_index (r1 r2 : list Z) (a b : Z) :
  In b (r1 ++ r2) ->
  exists i, i <> List.length r1 /\ nth_error (r1 ++ a :: r2) i = Some b.
Proof.
  intros Hin. apply in_app_or in Hin as [Hin|Hin];
    apply In_nth_error in Hin as [i Hi].
  - assert (i < List.length r1)%nat by (apply nth_error_Some; congruence).
    exists i. split; [lia|]. rewrite nth_error_app1 by lia. exact Hi.
  - exists (List.length r1 + S i)%nat. split; [lia|].
    rewrite nth_error_app2 by lia.
    replace (List.length r1 + S i - List.length r1)%nat with (S i) by lia.
    exact Hi.
Qed.

Lemma index_in_others (r1 r2 : list Z) (a b : Z) (i : nat) :
  i <> List.length r1 -> nth_error (r1 ++ a :: r2) i = Some b -> In b (r1 ++ r2).
Proof.
  intros Hi Hn. apply in_or_app.
  destruct (Nat.lt_ge_cases i (List.length r1)) as [Hlt|Hge].
  - left. rewrite nth_error_app1 in Hn by lia. eapply nth_error_In; exact Hn.
  - right. rewrite nth_error_app2 in Hn by lia.
    destruct (i - List.length r1)%nat as [|k] eqn:E; [lia|].
    cbn in Hn. eapply nth_error_In; exact Hn.
Qed.

Lemma clear_from_pairwise (p : Z) (xs : list Z) :
  clear_from p [] xs = true <-> pairwise_distinct_mod p xs.
Proof.
  split.
  - intros Hclear i j xi xj Hij Hi Hj.
    destruct (nth_error_split xs j Hj) as (r1 & r2 & -> & Hlen).
    pose proof (clear_from_true p _ [] r1 r2 xj Hclear eq_refl) as Hall.
    cbn [app] in Hall. rewrite Forall_forall in Hall. apply Hall.
    apply (index_in_others r1 r2 xj xi i); [lia | exact Hi].
  - intros Hpw. destruct (clear_from p [] xs) eqn:Hclear; [reflexivity|].
    exfalso.
    destruct (clear_from_false p xs [] Hclear) as (r1 & a & r2 & b & -> & Hin & Hb).
    cbn [app] in Hin.
    destruct (in_others_index r1 r2 a b Hin) as (i & Hi & Hnth).
    apply (Hpw i (List.length r1) b a Hi Hnth); [|exact Hb].
    rewrite nth_error_app2 by lia. rewrite Nat.sub_diag. reflexivity.
Qed.

Lemma clear_from_collision (p : Z) (xs : list Z) :
  clear_from p [] xs = false <-> collision p xs.
Proof.
  split.
  - intros Hclear.
    destruct (clear_from_false p xs [] Hclear) as (r1 & a & r2 & b & -> & Hin & Hb).
    cbn [app] in Hin.
    destruct (in_others_index r1 r2 a b Hin) as (i & Hi & Hnth).
    exists i, (List.length r1), b, a. repeat split; try assumption.
    rewrite nth_error_app2 by lia. rewrite Nat.sub_diag. reflexivity.
  - intros (i & j & xi & xj & Hij & Hi & Hj & Hc).
    destruct (clear_from p [] xs) eqn:Hclear; [|reflexivity].
    exfalso. apply clear_from_pairwise in Hclear.
    exact (Hclear i j xi xj Hij Hi Hj Hc).
Qed.

(** C6: for a prime [p] and at least two shares, [reconstructSecret] throws
    the duplicate-x error exactly when two shares at different positions
    have x-coordinates congruent modulo [p]; without such a pair it returns
    a value. *)
Theorem reconstructSecret_degenerate_iff (p : Z) (shares : list share) :
  Z.prime p -> (2 <= List.length shares)%nat ->
  ((exists xj, reconstructSecret shares p = Throw (DuplicateX xj)) <->
     collision p (map x shares)) /\
  (~ collision p (map x shares) -> exists r, reconstructSecret shares p = Ok r).
Proof.
  intros Hp Hlen. unfold reconstructSecret.
  destruct (Nat.eqb_spec (List.length shares) 0) as [E|_]; [lia|].
  destruct (clear_from p [] (map x shares)) eqn:Hclear.
  - destruct (outer_loop_clear p shares [] 0 Hp Hclear) as (r & ws & Hr & _).
    cbn [app List.length] in Hr. rewrite Hr. split.
    + split.
      * intros [xj H]. discriminate.
      * intros Hc. apply clear_from_collision in Hc. congruence.
    + intros _. exists r. reflexivity.
  - destruct (outer_loop_clash p shares [] 0 Hp Hclear) as (xj & Hx).
    cbn [app List.length] in Hx. rewrite Hx.
    apply clear_from_collision in Hclear. split.
    + split; [intros _; exact Hclear | intros _; exists xj; reflexivity].
    + intros Hn. contradiction.
Qed.

Lemma reconstructSecret_degenerate_iff_witness :
  Z.prime 7 /\ (2 <= List.length [mkShare 1 4; mkShare 8 5])%nat /\
  ((exists xj, reconstructSecret [mkShare 1 4; mkShare 8 5] 7 = Throw (DuplicateX xj)) <->
     collision 7 (map x [mkShare 1 4; mkShare 8 5])) /\
  (~ collision 7 (map x [mkShare 1 4; mkShare 8 5]) ->
   exists r, reconstructSecret [mkShare 1 4; mkShare 8 5] 7 = Ok r).
Proof.
  assert (Hlen : (2 <= List.length [mkShare 1 4; mkShare 8 5])%nat) by (cbn; lia).
  split; [exact prime_7|]. split; [exact Hlen|].
  exact (reconstructSecret_degenerate_iff 7 [mkShare 1 4; mkShare 8 5] prime_7 Hlen).
Defined.

(** ** Polynomials *)

Lemma peval_padd (q1 q2 : list Z) (t : Z) :
  peval (padd q1 q2) t = peval q1 t + peval q2 t.
Proof.
  revert q2. induction q1 as [|a q1 IH]; intros [|b q2]; cbn [padd peval];
    try lia. rewrite IH. ring.
Qed.

Lemma length_padd (q1 q2 : list Z) :
  List.length (padd q1 q2) = Nat.max (List.length q1) (List.length q2).
Proof.
  revert q2. induction q1 as [|a q1 IH]; intros [|b q2]; cbn [padd List.length Nat.max];
    try reflexivity. rewrite IH. reflexivity.
Qed.

Lemma peval_pscale (c : Z) (q : list Z) (t : Z) :
  peval (pscale c q) t = c * peval q t.
Proof.
  induction q as [|a q IH]; cbn [pscale map peval]; [lia|].
  fold (pscale c q). rewrite IH. ring.
Qed.

Lemma length_pscale (c : Z) (q : list Z) : List.length (pscale c q) = List.length q.
Proof. apply length_map. Qed.

Lemma peval_pmul_lin (a : Z) (q : list Z) (t : Z) :
  peval (pmul_lin a q) t = (a - t) * peval q t.
Proof.
  unfold pmul_lin. rewrite peval_padd. cbn [peval]. rewrite !peval_pscale. ring.
Qed.

Lemma length_pmul_lin (a : Z) (q : list Z) :
  List.length (pmul_lin a q) = S (List.length q).
Proof.
  unfold pmul_lin. rewrite length_padd. cbn [List.length].
  rewrite !length_pscale. lia.
Qed.

Lemma peval_pbasis (l : list Z) (t : Z) :
  peval (pbasis l) t = prodZ (map (fun a => a - t) l).
Proof.
  induction l as [|a l IH]; cbn [pbasis map prodZ fold_right].
  - cbn [peval]. ring.
  - rewrite peval_pmul_lin, IH. reflexivity.
Qed.

Lemma length_pbasis (l : list Z) : List.length (pbasis l) = S (List.length l).
Proof.
  induction l as [|a l IH]; [reflexivity|].
  cbn [pbasis List.length]. rewrite length_pmul_lin, IH. reflexivity.
Qed.

Lemma peval_lag_poly (rest : list weighted) (pre : list Z) (t : Z) :
  peval (lag_poly pre rest) t = lag_sum t pre rest.
Proof.
  revert pre. induction rest as [|w rest IH]; intros pre; [reflexivity|].
  cbn [lag_poly lag_sum]. rewrite peval_padd, peval_pscale, peval_pbasis, IH.
  reflexivity.
Qed.

Lemma length_lag_poly (rest : list weighted) (pre : list Z) :
  (List.length (lag_poly pre rest) <= List.length pre + List.length rest)%nat.
Proof.
  revert pre. induction rest as [|w rest IH]; intros pre; cbn [lag_poly List.length];
    [lia|].
  rewrite length_padd, length_pscale, length_pbasis, length_app, length_map.
  specialize (IH (pre ++ [wx w])). rewrite length_app in IH. cbn [List.length] in IH.
  lia.
Qed.

(** Division by [X - a]: the quotient has one coefficient less. *)
Lemma factor_root (r : list Z) (c a : Z) :
  exists q, List.length q = List.length r /\
    forall t, peval (c :: r) t = (t - a) * peval q t + peval (c :: r) a.
Proof.
  revert c. induction r as [|d r IH]; intros c.
  - exists []. split; [reflexivity|]. intros t. cbn. lia.
  - destruct (IH d) as (q & Hlen & Hq).
    exists (peval (d :: r) a :: q). split; [cbn; lia|].
    intros t. cbn [peval] in *. rewrite (Hq t). ring.
Qed.

(** A polynomial with as many roots, distinct modulo a prime, as it has
    coefficients vanishes modulo that prime everywhere. *)
Lemma roots_vanish (p : Z) (xs : list Z) (q : list Z) (t : Z) :
  Z.prime p ->
  (List.length q <= List.length xs)%nat ->
  distinct_mod p xs ->
  Forall (fun xi => cong p (peval q xi) 0) xs ->
  cong p (peval q t) 0.
Proof.
  intros Hp. pose proof (Z.prime_ge_2 p Hp) as Hp2. revert q t.
  induction xs as [|a xs IH]; intros q t Hlen Hd Hroots.
  - destruct q; [reflexivity | cbn in Hlen; lia].
  - destruct q as [|c r]; [reflexivity|].
    destruct (factor_root r c a) as (q' & Hlen' & Hq').
    cbn [distinct_mod] in Hd. destruct Hd as [Hda Hd].
    inversion Hroots as [|? ? Ha Hrest]; subst.
    assert (Hq0 : forall u, cong p (peval q' u) 0).
    { intros u. apply IH; [cbn in Hlen; lia | exact Hd |].
      rewrite Forall_forall in *. intros xi Hxi.
      specialize (Hrest xi Hxi). specialize (Hda xi Hxi).
      rewrite (Hq' xi), Ha, Z.add_0_r in Hrest.
      apply cong_zero_divide in Hrest; [|lia].
      apply Z.divide_prime_mul in Hrest; [|exact Hp].
      destruct Hrest as [H|H].
      - exfalso. apply Hda. apply Z.mod_divide; [lia | exact H].
      - apply cong_zero_divide; [lia | exact H]. }
    rewrite (Hq' t), (Hq0 t), Ha, Z.mul_0_r. reflexivity.
Qed.

Lemma clear_from_distinct (p : Z) (rest pre : list Z) :
  clear_from p pre rest = true -> distinct_mod p rest.
Proof.
  revert pre. induction rest as [|a rest IH]; intros pre H; [exact I|].
  cbn [clear_from] in H. apply andb_prop in H as [Hc H].
  apply negb_true_iff in Hc. apply clashes_false in Hc.
  apply Forall_app in Hc as [_ Hc].
  split; [exact Hc | exact (IH _ H)].
Qed.

(** ** The interpolating sum at the x-coordinates *)

Lemma prodZ_zero (l : list Z) (t : Z) :
  In t l -> prodZ (map (fun xm => xm - t) l) = 0.
Proof.
  induction l as [|a l IH]; intros Hin; [contradiction|].
  cbn [map prodZ fold_right]. destruct Hin as [->|Hin].
  - rewrite Z.sub_diag. reflexivity.
  - fold (prodZ (map (fun xm => xm - t) l)). rewrite (IH Hin). lia.
Qed.

Lemma lag_sum_left (rest : list weighted) (pre : list Z) (t : Z) :
  In t pre -> lag_sum t pre rest = 0.
Proof.
  revert pre. induction rest as [|w rest IH]; intros pre Hin; [reflexivity|].
  cbn [lag_sum]. rewrite prodZ_zero by (apply in_or_app; left; exact Hin).
  rewrite IH by (apply in_or_app; left; exact Hin). lia.
Qed.

Lemma lag_sum_at (r1 r2 : list weighted) (w : weighted) (pre : list Z) :
  lag_sum (wx w) pre (r1 ++ w :: r2) =
    snd w * prodZ (map (fun xm => xm - wx w) (pre ++ map wx r1 ++ map wx r2)).
Proof.
  revert pre. induction r1 as [|w1 r1 IH]; intros pre; cbn [app lag_sum map].
  - rewrite lag_sum_left by (apply in_or_app; right; left; reflexivity). lia.
  - rewrite prodZ_zero.
    + rewrite IH, <- app_assoc. cbn [app]. lia.
    + apply in_or_app. right. rewrite map_app. apply in_or_app. right.
      left. reflexivity.
Qed.

Lemma good_weights_at (p : Z) (r1 r2 : list weighted) (w : weighted) (pre : list Z) :
  good_weights p pre (r1 ++ w :: r2) ->
  cong p (snd w * prodZ (map (fun xm => xm - wx w) (pre ++ map wx r1 ++ map wx r2)))
         (y (fst w)).
Proof.
  revert pre. induction r1 as [|w1 r1 IH]; intros pre H; cbn [app good_weights map] in *.
  - exact (proj1 H).
  - destruct H as [_ H]. apply IH in H. rewrite <- app_assoc in H. exact H.
Qed.

Lemma lag_sum_interpolates (p : Z) (ws : list weighted) (w : weighted) :
  good_weights p [] ws -> In w ws ->
  cong p (lag_sum (wx w) [] ws) (y (fst w)).
Proof.
  intros Hgood Hin. apply in_split in Hin as (r1 & r2 & ->).
  rewrite lag_sum_at. apply good_weights_at. exact Hgood.
Qed.

(** ** The modular interpolation recovers the constant term *)

Lemma map_x_shares_of (cs : list Z) (p : Z) (xs : list Z) :
  map x (shares_of cs p xs) = xs.
Proof.
  unfold shares_of. rewrite map_map. cbn [x]. apply map_id.
Qed.

(** On the shares of a polynomial with at most as many coefficients as
    there are shares, at x-coordinates pairwise distinct modulo the prime,
    the result is the value of the polynomial at 0, reduced. *)
Lemma reconstructSecret_interpolates (p : Z) (cs xs : list Z) :
  Z.prime p -> xs <> [] ->
  (List.length cs <= List.length xs)%nat ->
  pairwise_distinct_mod p xs ->
  reconstructSecret (shares_of cs p xs) p = Ok (peval cs 0 mod p).
Proof.
  intros Hp Hne Hlen Hpw. pose proof (Z.prime_ge_2 p Hp) as Hp2.
  apply clear_from_pairwise in Hpw.
  assert (Hclear : clear_from p (map x []) (map x (shares_of cs p xs)) = true).
  { rewrite map_x_shares_of. exact Hpw. }
  destruct (outer_loop_clear p (shares_of cs p xs) [] 0 Hp Hclear)
    as (r & ws & Hr & Hws & Hgood & Hcong).
  cbn [app List.length map] in Hr, Hgood, Hcong.
  unfold reconstructSecret.
  destruct (Nat.eqb_spec (List.length (shares_of cs p xs)) 0) as [E|_].
  { unfold shares_of in E. rewrite length_map in E.
    destruct xs; [contradiction | discriminate]. }
  rewrite Hr. f_equal.
  assert (Hrange : 0 <= r < p).
  { apply (outer_loop_range _ _ _ p 0 r) in Hr; [exact Hr | lia | lia]. }
  rewrite <- (Z.mod_small r p) by exact Hrange.
  change (cong p r (peval cs 0)). rewrite Hcong, Z.add_0_l.
  (* the difference of the interpolating sum and the polynomial *)
  set (D := padd (lag_poly [] ws) (pscale (-1) cs)).
  assert (HD : forall t, peval D t = lag_sum t [] ws - peval cs t).
  { intros t. unfold D. rewrite peval_padd, peval_pscale, peval_lag_poly. ring. }
  assert (Hws_len : List.length ws = List.length xs).
  { rewrite <- (length_map fst ws), Hws. unfold shares_of. apply length_map. }
  assert (HDlen : (List.length D <= List.length xs)%nat).
  { unfold D. rewrite length_padd, length_pscale.
    pose proof (length_lag_poly ws []) as Hl. cbn [List.length] in Hl.
    unfold weighted in *. lia. }
  assert (Hroots : Forall (fun xi => cong p (peval D xi) 0) xs).
  { rewrite Forall_forall. intros xi Hxi.
    assert (Hin : In (mkShare xi (peval cs xi mod p)) (map fst ws)).
    { rewrite Hws. unfold shares_of.
      apply (in_map (fun xi => mkShare xi (peval cs xi mod p))). exact Hxi. }
    apply in_map_iff in Hin as (w & Hw & Hin).
    pose proof (lag_sum_interpolates p ws w Hgood Hin) as Hi.
    unfold wx in Hi. rewrite Hw in Hi. cbn [x y] in Hi.
    rewrite HD, Hi, cong_mod, Z.sub_diag. reflexivity. }
  pose proof (roots_vanish p xs D 0 Hp HDlen (clear_from_distinct p xs [] Hpw) Hroots)
    as H0.
  rewrite HD in H0.
  replace (lag_sum 0 [] ws) with (lag_sum 0 [] ws - peval cs 0 + peval cs 0) by ring.
  rewrite H0, Z.add_0_l. reflexivity.
Qed.

(** C1: for a prime [p > 2], a polynomial with [k >= 1] coefficients in
    [0, p) and [k] x-coordinates pairwise distinct and nonzero modulo [p],
    [reconstructSecret] on the shares [(x_i, P(x_i) mod p)] returns
    [P(0) mod p], which is the constant term. *)
Theorem reconstructSecret_recovers (p : Z) (cs xs : list Z) :
  Z.prime p -> 2 < p ->
  cs <> [] ->
  Forall (fun c => 0 <= c < p) cs ->
  List.length xs = List.length cs ->
  pairwise_distinct_mod p xs ->
  Forall (fun xi => xi mod p <> 0) xs ->
  reconstructSecret (shares_of cs p xs) p = Ok (peval cs 0 mod p) /\
  peval cs 0 mod p = hd 0 cs.
Proof.
  intros Hp Hp2 Hcs Hrange Hlen Hpw _. split.
  - apply reconstructSecret_interpolates; [exact Hp | | lia | exact Hpw].
    intros ->. destruct cs; [contradiction | discriminate].
  - destruct cs as [|c cs]; [contradiction|].
    inversion Hrange; subst. cbn [peval hd].
    rewrite Z.mul_0_l, Z.add_0_r. apply Z.mod_small. assumption.
Qed.

Lemma reconstructSecret_recovers_witness :
  reconstructSecret (shares_of [3; 1; 2] 7 [1; 2; 4]) 7 = Ok (peval [3; 1; 2] 0 mod 7) /\
  peval [3; 1; 2] 0 mod 7 = hd 0 [3; 1; 2].
Proof.
  apply (reconstructSecret_recovers 7 [3; 1; 2] [1; 2; 4] prime_7).
  - lia.
  - discriminate.
  - repeat constructor; lia.
  - reflexivity.
  - apply clear_from_pairwise. reflexivity.
  - repeat constructor; discriminate.
Defined.

(** ** The exact interpolation *)

(** The first sample of the repository: the shares at x = 1, 2, 3 give 3. *)
Example main_sample1 : main_secret sample1 = Ok 3.
Proof. vm_compute. reflexivity. Qed.

(** C2: on the points of [X^2 + 1] at x = 1, 2, 4 the exact interpolator
    returns 0 and not the constant term 1: the terms 16/3, -10 and 34/6 are
    truncated one by one to 5, -10 and 5.  The program prints that 0 for the
    input with the keys 1, 2, 4 and the values 2, 5, 17. *)
Theorem lagrange_truncation_misses_constant :
  lagrangeInterpolationAtZero (points_of [1; 0; 1] [1; 2; 4]) = Ok 0 /\
  peval [1; 0; 1] 0 = 1 /\
  main_secret (mkCase 3 3 [mkRaw "1" "10" "2"; mkRaw "2" "10" "5"; mkRaw "4" "10" "17"])
    = Ok 0.
Proof. repeat split; vm_compute; reflexivity. Qed.

(** C3: on the points (1, 1), (2, 1), (4, 1) the rational reference sums
    8/3 - 2 + 1/3 to 1, and [lagrangeInterpolationAtZero] divides term by
    term (2, -2 and 0) and returns 0. *)
Theorem lagrange_differs_from_rational_reference :
  rational_reference [(1, 1); (2, 1); (4, 1)] = Some 1 /\
  lagrangeInterpolationAtZero [(Num 1, 1); (Num 2, 1); (Num 4, 1)] = Ok 0.
Proof. split; vm_compute; reflexivity. Qed.

(** ** The share count *)

Lemma collect_shares_count (es : list raw_share) (acc shares : list share) (cnt c : Z) :
  collect_shares es acc cnt = Ok (shares, c) ->
  c = cnt + Z.of_nat (List.length (filter survives es)).
Proof.
  revert acc cnt. induction es as [|e es IH]; intros acc cnt H.
  - cbn in H. injection H as _ <-. cbn. lia.
  - cbn [collect_shares filter] in H |- *. unfold survives at 1.
    destruct (String.eqb (key e) "keys"); cbn [negb andb].
    + exact (IH _ _ H).
    + destruct (BigInt_of_string (key e)) as [xk|err]; cbn [bind] in H;
        [|discriminate].
      destruct (base_in_range (parseInt1 (base e))) as [b|]; [|exact (IH _ _ H)].
      destruct (decodeYValue (value e) b) as [yv|err]; cbn [is_ok].
      * apply IH in H. cbn [List.length]. lia.
      * exact (IH _ _ H).
Qed.






(** * Further properties of the code *)

(** ** mod and modInverse on any modulus *)

Lemma mod_nonzero (n m : Z) : m <> 0 -> mod_ n m = Ok (n mod m).
Proof.
  intros Hm. destruct (Z.lt_total 0 m) as [Hpos|[E|Hneg]];
    [apply mod_pos; exact Hpos | congruence |].
  unfold mod_. destruct (Z.eqb_spec m 0) as [E|_]; [contradiction|]. f_equal.
  pose proof (Z.rem_bound_abs n m Hm) as Hb.
  pose proof (Z.quot_rem' n m) as Hq.
  set (r1 := Z.rem n m) in *.
  destruct (Z.le_gt_cases r1 0) as [Hr|Hr].
  - replace (Z.rem (r1 + m) m) with r1.
    + apply (Z.mod_unique n m (n ÷ m) r1); [right; lia | exact Hq].
    + apply (Zrem_unique_full (r1 + m) m 1 r1); [right; lia | lia].
  - replace (Z.rem (r1 + m) m) with (r1 + m).
    + apply (Z.mod_unique n m (n ÷ m - 1) (r1 + m)); [right; lia | lia].
    + apply (Zrem_unique_full (r1 + m) m 0 (r1 + m)); [right; lia | lia].
Qed.

(** For every nonzero modulus, negative ones included, [mod] is the floored
    remainder: it has the sign of the modulus. *)
Theorem mod_floored (n m : Z) : m <> 0 -> mod_ n m = Ok (n mod m).
Proof. apply mod_nonzero. Qed.

Lemma mod_floored_witness : -7 <> 0 /\ mod_ 3 (-7) = Ok (-4).
Proof. split; [lia | exact (mod_floored 3 (-7) ltac:(lia))]. Defined.

Lemma modInverse_loop_sound (fuel : nat) (a x m r : Z) :
  0 < m -> modInverse_loop fuel a x m = Ok r -> x <= r < m /\ (a * r) mod m = 1.
Proof.
  intros Hm. revert x. induction fuel as [|fuel IH]; intros x H; [discriminate|].
  cbn in H. destruct (Z.ltb_spec x m); [|discriminate].
  rewrite mod_pos in H by exact Hm. cbn [bind] in H.
  destruct (Z.eqb_spec ((a * x) mod m) 1) as [E|_].
  - injection H as <-. split; [lia | exact E].
  - apply IH in H. split; [lia | apply H].
Qed.

(** Inverses modulo [m] are unique in [0, m). *)
Lemma inverse_unique (a m r r' : Z) :
  0 < m -> 0 <= r < m -> 0 <= r' < m ->
  (a * r) mod m = 1 -> (a * r') mod m = 1 -> r = r'.
Proof.
  intros Hm Hr Hr' H H'.
  assert (E : cong m r r').
  { transitivity (r * (a * r')).
    - unfold cong. rewrite <- (Z.mul_mod_idemp_r r (a * r')) by lia.
      rewrite H', Z.mul_1_r. reflexivity.
    - replace (r * (a * r')) with ((a * r) * r') by ring.
      unfold cong. rewrite <- (Z.mul_mod_idemp_l (a * r) r') by lia.
      rewrite H, Z.mul_1_l. reflexivity. }
  unfold cong in E. rewrite !Z.mod_small in E by assumption. exact E.
Qed.

Lemma modInverse_char (a m r : Z) :
  modInverse a m = Ok r <-> (1 <= r < m /\ (a * r) mod m = 1).
Proof.
  split.
  - intros H. unfold modInverse in H.
    destruct (Z.eq_dec m 0) as [->|Hm0]; [discriminate|].
    rewrite mod_nonzero in H by exact Hm0. cbn [bind] in H.
    destruct (Z.le_gt_cases m 1) as [Hle|Hgt].
    + replace (Z.to_nat (m - 1)) with 0%nat in H by lia. discriminate.
    + apply modInverse_loop_sound in H; [|lia].
      rewrite Z.mul_mod_idemp_l in H by lia. exact H.
  - intros [Hr H]. unfold modInverse. rewrite mod_pos by lia. cbn [bind].
    destruct (modInverse_loop_found (Z.to_nat (m - 1)) (a mod m) 1 m r)
      as (r' & Hr' & Hrange & Hinv); [lia | lia | | lia |].
    + rewrite Z.mul_mod_idemp_l by lia. exact H.
    + rewrite Hr'. f_equal. rewrite Z.mul_mod_idemp_l in Hinv by lia.
      apply (inverse_unique a m r' r); (lia || assumption).
Qed.

(** Whatever the modulus, prime or not, [modInverse a m] returns [r] exactly
    when [r] is the inverse of [a] in [1, m); in particular it returns
    nothing for a modulus below 2. *)
Theorem modInverse_returns_iff (a m r : Z) :
  modInverse a m = Ok r <-> (1 <= r < m /\ (a * r) mod m = 1).
Proof. apply modInverse_char. Qed.

Lemma coprime_inverse_exists (m a : Z) :
  1 < m -> Z.gcd a m = 1 -> exists x0, 1 <= x0 < m /\ (a * x0) mod m = 1.
Proof.
  intros Hm Hg.
  destruct (Z.Bezout_coprime a m Hg) as (u & v & Huv).
  assert (Hinv : (a * (u mod m)) mod m = 1).
  { rewrite Z.mul_mod_idemp_r by lia.
    replace (a * u) with (1 + (- v) * m) by lia.
    rewrite Z_mod_plus_full. apply Z.mod_small. lia. }
  exists (u mod m). split; [|exact Hinv].
  pose proof (Z.mod_pos_bound u m ltac:(lia)) as Hb.
  assert (u mod m <> 0).
  { intros E. rewrite E, Z.mul_0_r, Z.mod_0_l in Hinv by lia. lia. }
  lia.
Qed.

(** For a modulus above 1, prime or composite, [modInverse] returns a value
    exactly when [a] and [m] are coprime, and throws the
    no-modular-inverse error otherwise. *)
Theorem modInverse_coprime_iff (a m : Z) :
  1 < m ->
  ((exists r, modInverse a m = Ok r) <-> Z.gcd a m = 1) /\
  (Z.gcd a m <> 1 -> modInverse a m = Throw (NoModularInverse (a mod m) m)).
Proof.
  intros Hm.
  assert (Hfwd : forall r, (a * r) mod m = 1 -> Z.gcd a m = 1).
  { intros r H. apply Z.coprime_Bezout.
    exists r, (- ((a * r) / m)).
    pose proof (Z.div_mod (a * r) m ltac:(lia)). lia. }
  split.
  - split.
    + intros [r H]. apply modInverse_char in H. exact (Hfwd r (proj2 H)).
    + intros Hg. destruct (coprime_inverse_exists m a Hm Hg) as (r & Hr & Hinv).
      exists r. apply modInverse_char. split; assumption.
  - intros Hg. unfold modInverse. rewrite mod_pos by lia. cbn [bind].
    apply modInverse_loop_none; [lia|].
    intros x0 _ H. rewrite Z.mul_mod_idemp_l in H by lia.
    exact (Hg (Hfwd x0 H)).
Qed.

Lemma modInverse_coprime_iff_witness :
  1 < 10 /\
  ((exists r, modInverse 3 10 = Ok r) <-> Z.gcd 3 10 = 1) /\
  (Z.gcd 4 10 <> 1 -> modInverse 4 10 = Throw (NoModularInverse (4 mod 10) 10)).
Proof.
  assert (Hm : 1 < 10) by lia.
  split; [exact Hm|].
  split; [exact (proj1 (modInverse_coprime_iff 3 10 Hm))
         | exact (proj2 (modInverse_coprime_iff 4 10 Hm))].
Defined.

(** ** reconstructSecret: edge cases, order and the share at zero *)

(** With one share the secret is that share's [y] reduced, for any modulus
    from 2 on. *)
Theorem reconstructSecret_single (s : share) (p : Z) :
  2 <= p -> reconstructSecret [s] p = Ok (y s mod p).
Proof.
  intros Hp. unfold reconstructSecret. cbn [List.length Nat.eqb outer_loop inner_loop bind].
  assert (Hinv : modInverse 1 p = Ok 1).
  { apply modInverse_char. split; [lia|].
    rewrite Z.mul_1_l. apply Z.mod_small. lia. }
  rewrite Hinv. cbn [bind].
  repeat (rewrite mod_pos by lia; cbn [bind]).
  rewrite !Z.mul_1_r, Z.add_0_l, !Zmod_mod. reflexivity.
Qed.

Lemma reconstructSecret_single_witness :
  2 <= 7 /\ reconstructSecret [mkShare 5 23] 7 = Ok 2.
Proof. split; [lia | exact (reconstructSecret_single (mkShare 5 23) 7 ltac:(lia))]. Defined.

(** More shares than coefficients, any integer coefficients and an
    x-coordinate congruent to 0 are all fine: on the shares of [P] at
    x-coordinates pairwise distinct modulo the prime, at least as many as [P]
    has coefficients, the result is [P(0) mod p]. *)
Theorem reconstructSecret_oversampled (p : Z) (cs xs : list Z) :
  Z.prime p -> xs <> [] ->
  (List.length cs <= List.length xs)%nat ->
  pairwise_distinct_mod p xs ->
  reconstructSecret (shares_of cs p xs) p = Ok (peval cs 0 mod p).
Proof. apply reconstructSecret_interpolates. Qed.

Lemma reconstructSecret_oversampled_witness :
  Z.prime 7 /\ [0; 1; 2; 4] <> [] /\
  (List.length [-3; 12]%Z <= List.length [0; 1; 2; 4]%Z)%nat /\
  pairwise_distinct_mod 7 [0; 1; 2; 4] /\
  reconstructSecret (shares_of [-3; 12] 7 [0; 1; 2; 4]) 7 = Ok (peval [-3; 12] 0 mod 7).
Proof.
  assert (H1 : [0; 1; 2; 4] <> []) by discriminate.
  assert (H2 : (List.length [-3; 12]%Z <= List.length [0; 1; 2; 4]%Z)%nat) by (cbn; lia).
  assert (H3 : pairwise_distinct_mod 7 [0; 1; 2; 4])
    by (apply clear_from_pairwise; reflexivity).
  repeat (split; [assumption || exact prime_7|]).
  exact (reconstructSecret_oversampled 7 [-3; 12] [0; 1; 2; 4] prime_7 H1 H2 H3).
Defined.

Lemma peval_cong (p : Z) (q : list Z) (t t' : Z) :
  cong p t t' -> cong p (peval q t) (peval q t').
Proof.
  intros Ht. induction q as [|c q IH]; [reflexivity|].
  cbn [peval]. rewrite IH, Ht. reflexivity.
Qed.

(** What the loop leaves on shares with x-coordinates pairwise distinct
    modulo the prime: a value in [0, p) congruent to the interpolating sum
    at 0 for weights that interpolate the shares. *)
Lemma reconstructSecret_as_sum (p : Z) (shares : list share) :
  Z.prime p -> shares <> [] ->
  clear_from p [] (map x shares) = true ->
  exists r ws,
    reconstructSecret shares p = Ok r /\ 0 <= r < p /\
    map fst ws = shares /\ good_weights p [] ws /\
    cong p r (lag_sum 0 [] ws).
Proof.
  intros Hp Hne Hclear. pose proof (Z.prime_ge_2 p Hp) as Hp2.
  destruct (outer_loop_clear p shares [] 0 Hp Hclear)
    as (r & ws & Hr & Hws & Hgood & Hcong).
  cbn [app List.length map] in Hr, Hgood, Hcong. rewrite Z.add_0_l in Hcong.
  exists r, ws. unfold reconstructSecret.
  destruct shares as [|s shares]; [contradiction|]. cbn [List.length Nat.eqb].
  split; [exact Hr|]. split; [|repeat split; assumption].
  apply (outer_loop_range _ _ _ p 0 r) in Hr; [exact Hr | lia | lia].
Qed.

(** A share whose x-coordinate is congruent to 0 carries the secret: the
    result is its [y] reduced. *)
Theorem reconstructSecret_share_at_zero (p : Z) (shares : list share) (s : share) :
  Z.prime p -> pairwise_distinct_mod p (map x shares) ->
  In s shares -> x s mod p = 0 ->
  reconstructSecret shares p = Ok (y s mod p).
Proof.
  intros Hp Hpw Hin Hx. pose proof (Z.prime_ge_2 p Hp) as Hp2.
  apply clear_from_pairwise in Hpw.
  destruct (reconstructSecret_as_sum p shares Hp) as (r & ws & Hr & Hrange & Hws & Hgood & Hcong);
    [intros ->; contradiction | exact Hpw |].
  rewrite Hr. f_equal. rewrite <- (Z.mod_small r p) by exact Hrange.
  change (cong p r (y s)). rewrite Hcong.
  rewrite <- Hws in Hin. apply in_map_iff in Hin as (w & Hw & Hin).
  pose proof (lag_sum_interpolates p ws w Hgood Hin) as Hi.
  unfold wx in Hi. rewrite Hw in Hi. rewrite <- Hi.
  rewrite <- !peval_lag_poly. apply peval_cong.
  unfold cong. rewrite Hx, Z.mod_0_l by lia. reflexivity.
Qed.

Lemma reconstructSecret_share_at_zero_witness :
  Z.prime 7 /\
  pairwise_distinct_mod 7 (map x [mkShare 3 5; mkShare 14 4; mkShare 1 6]) /\
  reconstructSecret [mkShare 3 5; mkShare 14 4; mkShare 1 6] 7 = Ok (4 mod 7).
Proof.
  assert (H : pairwise_distinct_mod 7 (map x [mkShare 3 5; mkShare 14 4; mkShare 1 6]))
    by (apply clear_from_pairwise; reflexivity).
  split; [exact prime_7|]. split; [exact H|].
  apply (reconstructSecret_share_at_zero 7 _ (mkShare 14 4) prime_7 H).
  - right. left. reflexivity.
  - reflexivity.
Defined.

Lemma pairwise_distinct_NoDup (p : Z) (xs : list Z) :
  pairwise_distinct_mod p xs <-> NoDup (map (fun a => a mod p) xs).
Proof.
  split.
  - intros Hpw. apply NoDup_nth_error. intros i j Hi E.
    rewrite !nth_error_map in E. rewrite length_map in Hi.
    destruct (nth_error xs i) as [xi|] eqn:Ei;
      [|apply nth_error_None in Ei; lia].
    destruct (nth_error xs j) as [xj|] eqn:Ej; [|discriminate].
    cbn in E. injection E as E.
    destruct (Nat.eq_dec i j) as [|Hij]; [assumption|]. exfalso.
    apply (Hpw i j xi xj Hij Ei Ej). apply Z.cong_iff_0. exact E.
  - intros Hnd i j xi xj Hij Hi Hj Hc. apply Hij.
    apply (proj1 (NoDup_nth_error _) Hnd).
    + rewrite length_map. apply nth_error_Some. congruence.
    + rewrite !nth_error_map, Hi, Hj. cbn. f_equal. apply Z.cong_iff_0. exact Hc.
Qed.

(** Two interpolating sums for the same shares agree at 0 modulo the prime. *)
Lemma interpolation_unique (p : Z) (ws1 ws2 : list weighted) :
  Z.prime p ->
  Permutation (map fst ws1) (map fst ws2) ->
  distinct_mod p (map wx ws1) ->
  good_weights p [] ws1 -> good_weights p [] ws2 ->
  cong p (lag_sum 0 [] ws1) (lag_sum 0 [] ws2).
Proof.
  intros Hp Hperm Hd Hg1 Hg2.
  set (D := padd (lag_poly [] ws1) (pscale (-1) (lag_poly [] ws2))).
  assert (HD : forall t, peval D t = lag_sum t [] ws1 - lag_sum t [] ws2).
  { intros t. unfold D. rewrite peval_padd, peval_pscale, !peval_lag_poly. ring. }
  assert (Hlen : List.length ws2 = List.length ws1).
  { apply Permutation_length in Hperm. rewrite !length_map in Hperm.
    unfold weighted in *. lia. }
  assert (HDlen : (List.length D <= List.length (map wx ws1))%nat).
  { unfold D. rewrite length_padd, length_pscale, length_map.
    pose proof (length_lag_poly ws1 []) as H1.
    pose proof (length_lag_poly ws2 []) as H2.
    cbn [List.length] in H1, H2. unfold weighted in *. lia. }
  assert (Hroots : Forall (fun xi => cong p (peval D xi) 0) (map wx ws1)).
  { rewrite Forall_forall. intros xi Hxi.
    apply in_map_iff in Hxi as (w1 & <- & Hin1).
    assert (Hin2 : In (fst w1) (map fst ws2)).
    { apply (Permutation_in _ Hperm). apply in_map. exact Hin1. }
    apply in_map_iff in Hin2 as (w2 & Hw & Hin2).
    pose proof (lag_sum_interpolates p ws1 w1 Hg1 Hin1) as H1.
    pose proof (lag_sum_interpolates p ws2 w2 Hg2 Hin2) as H2.
    unfold wx in H2. rewrite Hw in H2. fold (wx w1) in H2.
    rewrite HD, H1, H2, Z.sub_diag. reflexivity. }
  pose proof (roots_vanish p _ D 0 Hp HDlen Hd Hroots) as H0.
  rewrite HD in H0.
  replace (lag_sum 0 [] ws1)
    with (lag_sum 0 [] ws1 - lag_sum 0 [] ws2 + lag_sum 0 [] ws2) by ring.
  rewrite H0, Z.add_0_l. reflexivity.
Qed.

(** The order of the shares does not matter: with x-coordinates pairwise
    distinct modulo the prime, a permutation of the shares gives the same
    secret. *)
Theorem reconstructSecret_order_independent (p : Z) (shares1 shares2 : list share) :
  Z.prime p ->
  pairwise_distinct_mod p (map x shares1) ->
  Permutation shares1 shares2 ->
  reconstructSecret shares1 p = reconstructSecret shares2 p.
Proof.
  intros Hp Hpw Hperm.
  destruct shares1 as [|s1 shares1].
  { apply Permutation_nil in Hperm. subst. reflexivity. }
  assert (Hpw2 : pairwise_distinct_mod p (map x shares2)).
  { apply pairwise_distinct_NoDup. apply pairwise_distinct_NoDup in Hpw.
    eapply Permutation_NoDup; [|exact Hpw].
    apply Permutation_map, Permutation_map. exact Hperm. }
  apply clear_from_pairwise in Hpw, Hpw2.
  destruct (reconstructSecret_as_sum p (s1 :: shares1) Hp)
    as (r1 & ws1 & Hr1 & Hrange1 & Hws1 & Hg1 & Hc1); [discriminate | exact Hpw |].
  destruct (reconstructSecret_as_sum p shares2 Hp)
    as (r2 & ws2 & Hr2 & Hrange2 & Hws2 & Hg2 & Hc2); [| exact Hpw2 |].
  { intros ->. apply Permutation_sym, Permutation_nil in Hperm. discriminate. }
  rewrite Hr1, Hr2. f_equal.
  assert (E : cong p r1 r2).
  { rewrite Hc1, Hc2. apply interpolation_unique; try assumption.
    - rewrite Hws1, Hws2. exact Hperm.
    - replace (map wx ws1) with (map x (s1 :: shares1)).
      + apply (clear_from_distinct p _ []). exact Hpw.
      + rewrite <- Hws1, map_map. reflexivity. }
  unfold cong in E. rewrite !Z.mod_small in E by assumption. exact E.
Qed.

Lemma reconstructSecret_order_independent_witness :
  Z.prime 7 /\
  pairwise_distinct_mod 7 (map x [mkShare 1 4; mkShare 2 0; mkShare 3 5]) /\
  Permutation [mkShare 1 4; mkShare 2 0; mkShare 3 5]
              [mkShare 3 5; mkShare 1 4; mkShare 2 0] /\
  reconstructSecret [mkShare 1 4; mkShare 2 0; mkShare 3 5] 7 =
  reconstructSecret [mkShare 3 5; mkShare 1 4; mkShare 2 0] 7.
Proof.
  assert (H : pairwise_distinct_mod 7 (map x [mkShare 1 4; mkShare 2 0; mkShare 3 5]))
    by (apply clear_from_pairwise; reflexivity).
  assert (HP : Permutation [mkShare 1 4; mkShare 2 0; mkShare 3 5]
                           [mkShare 3 5; mkShare 1 4; mkShare 2 0]).
  { apply Permutation_sym.
    apply (Permutation_cons_app [mkShare 1 4; mkShare 2 0] [] (mkShare 3 5)).
    rewrite app_nil_r. apply Permutation_refl. }
  split; [exact prime_7|]. split; [exact H|]. split; [exact HP|].
  exact (reconstructSecret_order_independent 7 _ _ prime_7 H HP).
Defined.

(** ** The exact interpolation: errors and value *)

Lemma lagrange_inner_past (rest : list (Z * Z)) (j i : nat) (xi num den : Z) :
  (i < j)%nat ->
  lagrange_inner (int_points rest) j i xi num den =
    Ok (num_ex (map fst rest) num, den_ex xi (map fst rest) den).
Proof.
  revert j num den. induction rest as [|q rest IH]; intros j num den Hj; [reflexivity|].
  cbn [int_points map lagrange_inner fst BigInt_of_number bind num_ex den_ex fold_left].
  destruct (Nat.eqb_spec i j) as [E|_]; [lia|]. apply IH. lia.
Qed.

Lemma lagrange_inner_skips (pre post : list (Z * Z)) (q : Z * Z) (j : nat)
    (xi num den : Z) :
  lagrange_inner (int_points (pre ++ q :: post)) j (j + List.length pre) xi num den =
    Ok (num_ex (map fst (pre ++ post)) num, den_ex xi (map fst (pre ++ post)) den).
Proof.
  revert j num den. induction pre as [|a pre IH]; intros j num den.
  - cbn [app List.length int_points map lagrange_inner]. rewrite Nat.add_0_r, Nat.eqb_refl.
    apply lagrange_inner_past. lia.
  - cbn [app List.length int_points map lagrange_inner fst BigInt_of_number bind
         num_ex den_ex fold_left].
    destruct (Nat.eqb_spec (j + S (List.length pre)) j) as [E|_]; [lia|].
    replace (j + S (List.length pre))%nat with (S j + List.length pre)%nat by lia.
    apply IH.
Qed.

Lemma num_ex_prod (l : list Z) (num : Z) :
  num_ex l num = num * prodZ (map Z.opp l).
Proof.
  revert num. induction l as [|a l IH]; intros num;
    cbn [num_ex fold_left map prodZ fold_right]; [ring|].
  fold (num_ex l (num * - a)). fold (prodZ (map Z.opp l)). rewrite IH. ring.
Qed.

Lemma den_ex_prod (xi : Z) (l : list Z) (den : Z) :
  den_ex xi l den = den * prodZ (map (fun xj => xi - xj) l).
Proof.
  revert den. induction l as [|a l IH]; intros den;
    cbn [den_ex fold_left map prodZ fold_right]; [ring|].
  fold (den_ex xi l (den * (xi - a))). fold (prodZ (map (fun xj => xi - xj) l)).
  rewrite IH. ring.
Qed.

Lemma den_ex_zero_iff (xi : Z) (l : list Z) : den_ex xi l 1 = 0 <-> In xi l.
Proof.
  rewrite den_ex_prod, Z.mul_1_l.
  induction l as [|a l IH]; cbn [map prodZ fold_right In]; [lia|].
  fold (prodZ (map (fun xj => xi - xj) l)). rewrite <- IH. nia.
Qed.

(** One iteration of the outer loop on integer points. *)
Lemma lagrange_outer_step (pre rest : list (Z * Z)) (q : Z * Z) (acc : Z) :
  lagrange_outer (int_points (pre ++ q :: rest)) (int_points (q :: rest))
    (List.length pre) acc =
  if den_ex (fst q) (map fst (pre ++ rest)) 1 =? 0
  then Throw RangeError_DivisionByZero
  else lagrange_outer (int_points (pre ++ q :: rest)) (int_points rest)
         (S (List.length pre))
         (acc + Z.quot (snd q * num_ex (map fst (pre ++ rest)) 1)
                       (den_ex (fst q) (map fst (pre ++ rest)) 1)).
Proof.
  cbn [int_points map lagrange_outer fst snd BigInt_of_number bind].
  fold (int_points (pre ++ q :: rest)). fold (int_points rest).
  rewrite (lagrange_inner_skips pre rest q 0). cbn [bind]. unfold bigint_div.
  destruct (den_ex (fst q) (map fst (pre ++ rest)) 1 =? 0); reflexivity.
Qed.

Lemma lagrange_outer_value (rest pre : list (Z * Z)) (acc : Z) :
  NoDup (map fst (pre ++ rest)) ->
  lagrange_outer (int_points (pre ++ rest)) (int_points rest) (List.length pre) acc =
    Ok (acc + truncated_sum (map fst pre) rest).
Proof.
  revert pre acc. induction rest as [|q rest IH]; intros pre acc Hnd.
  - cbn. rewrite Z.add_0_r. reflexivity.
  - rewrite lagrange_outer_step.
    assert (Hq : ~ In (fst q) (map fst (pre ++ rest))).
    { rewrite map_app in Hnd |- *. cbn [map] in Hnd.
      apply NoDup_remove_2 in Hnd. exact Hnd. }
    destruct (Z.eqb_spec (den_ex (fst q) (map fst (pre ++ rest)) 1) 0) as [E|_].
    { apply den_ex_zero_iff in E. contradiction. }
    rewrite (snoc_app pre q rest), (length_snoc pre q).
    rewrite IH by (rewrite <- snoc_app; exact Hnd).
    cbn [truncated_sum]. rewrite !map_app. cbn [map]. f_equal. ring.
Qed.

Lemma lagrange_outer_duplicate (rest pre : list (Z * Z)) (acc : Z) :
  NoDup (map fst pre) ->
  (forall a, In a (map fst pre) -> ~ In a (map fst rest)) ->
  ~ NoDup (map fst rest) ->
  lagrange_outer (int_points (pre ++ rest)) (int_points rest) (List.length pre) acc =
    Throw RangeError_DivisionByZero.
Proof.
  revert pre acc. induction rest as [|q rest IH]; intros pre acc Hpre Hsep Hdup.
  - exfalso. apply Hdup. constructor.
  - rewrite lagrange_outer_step.
    destruct (Z.eqb_spec (den_ex (fst q) (map fst (pre ++ rest)) 1) 0) as [E|E];
      [reflexivity|].
    rewrite den_ex_zero_iff, map_app, in_app_iff in E.
    rewrite (snoc_app pre q rest), (length_snoc pre q).
    apply IH.
    + rewrite map_app. cbn [map]. apply NoDup_app.
      * exact Hpre.
      * constructor; [intros [] | constructor].
      * intros a Ha [<-|[]]. apply (Hsep _ Ha). left. reflexivity.
    + intros a Ha Hin. rewrite map_app in Ha. cbn [map] in Ha.
      apply in_app_iff in Ha as [Ha|[<-|[]]].
      * apply (Hsep a Ha). right. exact Hin.
      * apply E. right. exact Hin.
    + intros Hnd. apply Hdup. cbn [map]. constructor; [|exact Hnd].
      intros Hin. apply E. right. exact Hin.
Qed.

(** On points with integer x-coordinates the exact interpolator returns a
    value exactly when the x-coordinates are all different, then the sum of
    the truncated terms; a repeated x-coordinate ends in the division-by-zero
    RangeError. *)
Theorem lagrange_duplicate_iff (pts : list (Z * Z)) :
  (NoDup (map fst pts) ->
   lagrangeInterpolationAtZero (int_points pts) = Ok (truncated_sum [] pts)) /\
  (~ NoDup (map fst pts) ->
   lagrangeInterpolationAtZero (int_points pts) = Throw RangeError_DivisionByZero).
Proof.
  unfold lagrangeInterpolationAtZero. split; intros H.
  - exact (lagrange_outer_value pts [] 0 H).
  - apply (lagrange_outer_duplicate pts [] 0); [constructor | intros a [] | exact H].
Qed.

Lemma lagrange_duplicate_iff_witness :
  NoDup (map fst [(1, 1); (2, 1); (4, 1)]) /\
  lagrangeInterpolationAtZero (int_points [(1, 1); (2, 1); (4, 1)]) =
    Ok (truncated_sum [] [(1, 1); (2, 1); (4, 1)]) /\
  ~ NoDup (map fst [(3, 4); (5, 9); (3, 7)]) /\
  lagrangeInterpolationAtZero (int_points [(3, 4); (5, 9); (3, 7)]) =
    Throw RangeError_DivisionByZero.
Proof.
  assert (H1 : NoDup (map fst [(1, 1); (2, 1); (4, 1)]))
    by (repeat constructor; cbn; lia).
  assert (H2 : ~ NoDup (map fst [(3, 4); (5, 9); (3, 7)])).
  { intros H. inversion H as [|? ? Hn _]. apply Hn. right. left. reflexivity. }
  split; [exact H1|].
  split; [exact (proj1 (lagrange_duplicate_iff _) H1)|].
  split; [exact H2|].
  exact (proj2 (lagrange_duplicate_iff _) H2).
Defined.

(** ** The exact interpolation is right when no term is truncated *)

Lemma roots_vanish_exact (xs : list Z) (q : list Z) (t : Z) :
  (List.length q <= List.length xs)%nat ->
  NoDup xs ->
  Forall (fun xi => peval q xi = 0) xs ->
  peval q t = 0.
Proof.
  revert q t. induction xs as [|a xs IH]; intros q t Hlen Hnd Hroots.
  - destruct q; [reflexivity | cbn in Hlen; lia].
  - destruct q as [|c r]; [reflexivity|].
    destruct (factor_root r c a) as (q' & Hlen' & Hq').
    inversion Hnd as [|? ? Hnotin Hnd']; subst.
    inversion Hroots as [|? ? Ha Hrest]; subst.
    assert (Hq0 : forall u, peval q' u = 0).
    { intros u. apply IH; [cbn in Hlen; lia | exact Hnd' |].
      rewrite Forall_forall in *. intros xi Hxi.
      specialize (Hrest xi Hxi). rewrite (Hq' xi), Ha, Z.add_0_r in Hrest.
      apply Z.mul_eq_0 in Hrest as [H|H]; [|exact H].
      exfalso. apply Hnotin. replace a with xi by lia. exact Hxi. }
    rewrite (Hq' t), (Hq0 t), Ha. ring.
Qed.

Lemma alt_sign_square (l : list Z) : alt_sign l * alt_sign l = 1.
Proof. induction l as [|a l IH]; cbn [alt_sign]; lia. Qed.

Lemma prodZ_flip (a : Z) (l : list Z) :
  prodZ (map (fun xm => xm - a) l) = alt_sign l * den_ex a l 1.
Proof.
  rewrite den_ex_prod, Z.mul_1_l.
  induction l as [|b l IH]; cbn [map prodZ fold_right alt_sign]; [ring|].
  fold (prodZ (map (fun xm => xm - a) l)). fold (prodZ (map (fun xj => a - xj) l)).
  rewrite IH. ring.
Qed.

Lemma prodZ_at_zero (l : list Z) :
  prodZ (map (fun xm => xm - 0) l) = alt_sign l * num_ex l 1.
Proof.
  rewrite num_ex_prod, Z.mul_1_l.
  induction l as [|b l IH]; cbn [map prodZ fold_right alt_sign]; [ring|].
  fold (prodZ (map (fun xm => xm - 0) l)). fold (prodZ (map Z.opp l)).
  rewrite IH. ring.
Qed.

Lemma map_wx_exact_ws (E : Z) (P : list Z) (rest pre : list Z) :
  map wx (exact_ws E P pre rest) = rest.
Proof.
  revert pre. induction rest as [|a rest IH]; intros pre; [reflexivity|].
  cbn [exact_ws map]. rewrite IH. reflexivity.
Qed.

Lemma div_mul_exact (E d : Z) : d <> 0 -> (d | E) -> E / d * d = E.
Proof. intros Hd [c ->]. rewrite Z.div_mul by exact Hd. reflexivity. Qed.

Lemma good_weights_exact_ws (E : Z) (P : list Z) (rest pre : list Z) :
  NoDup (pre ++ rest) ->
  Forall (fun d => (d | E)) (dens pre rest) ->
  good_weights 0 pre (exact_ws E P pre rest).
Proof.
  revert pre. induction rest as [|a rest IH]; intros pre Hnd Hdiv; [exact I|].
  cbn [dens] in Hdiv. inversion Hdiv as [|? ? Hd Hdiv']; subst.
  cbn [exact_ws good_weights fst snd]. split.
  - unfold wx at 1. cbn [fst x y]. rewrite map_wx_exact_ws, !Z.mod_0_r, prodZ_flip.
    assert (Hne : den_ex a (pre ++ rest) 1 <> 0).
    { rewrite den_ex_zero_iff. apply NoDup_remove_2 in Hnd. exact Hnd. }
    pose proof (div_mul_exact E _ Hne Hd) as Hx.
    pose proof (alt_sign_square (pre ++ rest)) as Hs.
    transitivity (alt_sign (pre ++ rest) * alt_sign (pre ++ rest) * peval P a *
                  (E / den_ex a (pre ++ rest) 1 * den_ex a (pre ++ rest) 1)); [ring|].
    rewrite Hs, Hx. ring.
  - unfold wx at 1. cbn [fst x]. apply IH; [|exact Hdiv'].
    rewrite <- app_assoc. exact Hnd.
Qed.

Lemma lag_sum_exact_ws (E : Z) (P : list Z) (rest pre : list Z) :
  NoDup (pre ++ rest) ->
  Forall (fun d => (d | E)) (dens pre rest) ->
  exact_from P pre rest ->
  lag_sum 0 pre (exact_ws E P pre rest) = E * truncated_sum pre (graph_of P rest).
Proof.
  revert pre. induction rest as [|a rest IH]; intros pre Hnd Hdiv Hex.
  - cbn. ring.
  - cbn [dens] in Hdiv. inversion Hdiv as [|? ? Hd Hdiv']; subst.
    cbn [exact_from] in Hex. destruct Hex as [[t Ht] Hex].
    cbn [exact_ws lag_sum graph_of map truncated_sum fst snd].
    fold (graph_of P rest).
    unfold wx at 2. cbn [fst x].
    rewrite map_wx_exact_ws, prodZ_at_zero.
    assert (Hmap : map fst (graph_of P rest) = rest).
    { unfold graph_of. rewrite map_map. cbn [fst]. apply map_id. }
    rewrite Hmap.
    rewrite IH; [|rewrite <- app_assoc; exact Hnd | exact Hdiv' | exact Hex].
    assert (Hne : den_ex a (pre ++ rest) 1 <> 0).
    { rewrite den_ex_zero_iff. apply NoDup_remove_2 in Hnd. exact Hnd. }
    pose proof (div_mul_exact E _ Hne Hd) as Hx.
    pose proof (alt_sign_square (pre ++ rest)) as Hs.
    rewrite Ht, Z.quot_mul by exact Hne.
    set (d := den_ex a (pre ++ rest) 1) in *.
    set (sg := alt_sign (pre ++ rest)) in *.
    set (nm := num_ex (pre ++ rest) 1) in *.
    transitivity ((sg * sg) * (E / d) * (peval P a * nm)
                  + E * truncated_sum (pre ++ [a]) (graph_of P rest)); [ring|].
    rewrite Hs, Ht.
    transitivity (E / d * d * t + E * truncated_sum (pre ++ [a]) (graph_of P rest));
      [ring|].
    rewrite Hx. ring.
Qed.

Lemma dens_nonzero (rest pre : list Z) :
  NoDup (pre ++ rest) -> Forall (fun d => d <> 0) (dens pre rest).
Proof.
  revert pre. induction rest as [|a rest IH]; intros pre Hnd; [constructor|].
  cbn [dens]. constructor.
  - rewrite den_ex_zero_iff. apply NoDup_remove_2 in Hnd. exact Hnd.
  - apply IH. rewrite <- app_assoc. exact Hnd.
Qed.

Lemma prodZ_nonzero (l : list Z) : Forall (fun d => d <> 0) l -> prodZ l <> 0.
Proof.
  induction 1 as [|d l Hd Hl IH]; cbn [prodZ fold_right]; [lia|].
  fold (prodZ l). nia.
Qed.

Lemma prodZ_divides (l : list Z) : Forall (fun d => (d | prodZ l)) l.
Proof.
  induction l as [|d l IH]; [constructor|].
  cbn [prodZ fold_right]. fold (prodZ l). constructor.
  - apply Z.divide_factor_l.
  - eapply Forall_impl; [|exact IH]. intros b Hb. apply Z.divide_mul_r. exact Hb.
Qed.

Lemma exact_from_splits (P : list Z) (rest pre : list Z) :
  (forall r1 a r2, rest = r1 ++ a :: r2 ->
     (den_ex a (pre ++ r1 ++ r2) 1 | peval P a * num_ex (pre ++ r1 ++ r2) 1)) ->
  exact_from P pre rest.
Proof.
  revert pre. induction rest as [|a rest IH]; intros pre H; [exact I|].
  cbn [exact_from]. split.
  - exact (H [] a rest eq_refl).
  - apply IH. intros r1 b r2 ->. rewrite <- app_assoc.
    exact (H (a :: r1) b r2 eq_refl).
Qed.

Lemma exact_ws_y (E : Z) (P : list Z) (rest pre : list Z) (w : weighted) :
  In w (exact_ws E P pre rest) -> y (fst w) = E * peval P (wx w).
Proof.
  revert pre. induction rest as [|a rest IH]; intros pre Hin; [contradiction|].
  cbn [exact_ws] in Hin. destruct Hin as [<-|Hin]; [reflexivity|].
  exact (IH _ Hin).
Qed.

Lemma lagrange_exact_core (cs xs : list Z) :
  NoDup xs ->
  (List.length cs <= List.length xs)%nat ->
  (forall r1 a r2, xs = r1 ++ a :: r2 ->
     (den_ex a (r1 ++ r2) 1 | peval cs a * num_ex (r1 ++ r2) 1)) ->
  lagrangeInterpolationAtZero (points_of cs xs) = Ok (peval cs 0).
Proof.
  intros Hnd Hlen Hex.
  assert (Hpts : points_of cs xs = int_points (graph_of cs xs)).
  { unfold points_of, int_points, graph_of. rewrite map_map. reflexivity. }
  assert (Hfst : map fst (graph_of cs xs) = xs).
  { unfold graph_of. rewrite map_map. cbn [fst]. apply map_id. }
  rewrite Hpts. unfold lagrangeInterpolationAtZero.
  pose proof (lagrange_outer_value (graph_of cs xs) [] 0) as Hval.
  cbn [app List.length map] in Hval. rewrite Hval by (rewrite Hfst; exact Hnd).
  rewrite Z.add_0_l. f_equal.
  set (E := prodZ (dens [] xs)).
  assert (HE : E <> 0) by (apply prodZ_nonzero, dens_nonzero; exact Hnd).
  assert (Hdiv : Forall (fun d => (d | E)) (dens [] xs)) by apply prodZ_divides.
  set (ws := exact_ws E cs [] xs).
  assert (Hgood : good_weights 0 [] ws)
    by (apply good_weights_exact_ws; assumption).
  assert (Hsum : lag_sum 0 [] ws = E * truncated_sum [] (graph_of cs xs)).
  { apply lag_sum_exact_ws; try assumption. apply exact_from_splits. exact Hex. }
  set (D := padd (lag_poly [] ws) (pscale (- E) cs)).
  assert (HD : forall t, peval D t = lag_sum t [] ws - E * peval cs t).
  { intros t. unfold D. rewrite peval_padd, peval_pscale, peval_lag_poly. ring. }
  assert (Hwx : map wx ws = xs) by apply map_wx_exact_ws.
  assert (HDlen : (List.length D <= List.length xs)%nat).
  { unfold D. rewrite length_padd, length_pscale.
    pose proof (length_lag_poly ws []) as Hl. cbn [List.length] in Hl.
    rewrite <- (length_map wx ws), Hwx in Hl. lia. }
  assert (Hroots : Forall (fun xi => peval D xi = 0) xs).
  { rewrite Forall_forall. intros xi Hxi. rewrite <- Hwx in Hxi.
    apply in_map_iff in Hxi as (w & <- & Hin).
    pose proof (lag_sum_interpolates 0 ws w Hgood Hin) as Hi.
    unfold cong in Hi. rewrite !Z.mod_0_r in Hi.
    rewrite HD, Hi, (exact_ws_y E cs xs [] w Hin). ring. }
  pose proof (roots_vanish_exact xs D 0 HDlen Hnd Hroots) as H0.
  rewrite HD, Hsum in H0.
  apply (Z.mul_cancel_l _ _ E HE). lia.
Qed.

(** When the x-coordinates are all different and every term
    [y_i * num / den] divides without remainder, the exact interpolator
    returns the constant term: on the points of a polynomial with at most as
    many coefficients as there are points, the result is [P(0)]. *)
Theorem lagrange_exact_when_undivided (cs xs : list Z) :
  NoDup xs ->
  (List.length cs <= List.length xs)%nat ->
  (forall r1 a r2, xs = r1 ++ a :: r2 ->
     (den_ex a (r1 ++ r2) 1 | peval cs a * num_ex (r1 ++ r2) 1)) ->
  lagrangeInterpolationAtZero (points_of cs xs) = Ok (peval cs 0).
Proof. apply lagrange_exact_core. Qed.

Lemma lagrange_exact_when_undivided_witness :
  NoDup [1; 2; 3; 4] /\
  lagrangeInterpolationAtZero (points_of [5; -2; 1] [1; 2; 3; 4]) = Ok 5.
Proof.
  assert (Hnd : NoDup [1; 2; 3; 4]) by (repeat constructor; cbn; lia).
  split; [exact Hnd|].
  apply (lagrange_exact_when_undivided [5; -2; 1] [1; 2; 3; 4] Hnd).
  - cbn. lia.
  - intros r1 a r2 H.
    destruct r1 as [|b1 [|b2 [|b3 [|b4 r1]]]]; cbn in H; inversion H; subst;
      try (destruct r1; cbn in *; congruence);
      (apply Z.mod_divide; [vm_compute; discriminate | vm_compute; reflexivity]).
Defined.

Lemma lagrange_inner_nan (rest : list point) (j i : nat) (xi num den : Z) :
  (i < j)%nat -> Exists (fun q => fst q = NaN) rest ->
  lagrange_inner rest j i xi num den = Throw RangeError_NaN.
Proof.
  intros Hj Hex. revert j num den Hj.
  induction rest as [|q rest IH]; intros j num den Hj; [inversion Hex|].
  cbn [lagrange_inner]. destruct (Nat.eqb_spec i j) as [E|_]; [lia|].
  destruct (fst q) as [|xq] eqn:Hq; [reflexivity|]. cbn [BigInt_of_number bind].
  apply IH; [|lia]. inversion Hex as [? ? H|? ? H]; subst; [congruence | exact H].
Qed.

(** A key that [parseInt] cannot read gives a NaN x-coordinate, and any such
    point among those handed to the exact interpolator ends it in the
    RangeError of [BigInt(NaN)]. *)
Theorem lagrange_nan_key (points : list point) :
  Exists (fun q => fst q = NaN) points ->
  lagrangeInterpolationAtZero points = Throw RangeError_NaN.
Proof.
  intros Hex. unfold lagrangeInterpolationAtZero.
  destruct points as [|q rest]; [inversion Hex|].
  cbn [lagrange_outer lagrange_inner Nat.eqb].
  destruct (fst q) as [|xq] eqn:Hq; [reflexivity|]. cbn [BigInt_of_number bind].
  rewrite lagrange_inner_nan; [reflexivity | lia |].
  inversion Hex as [? ? H|? ? H]; subst; [congruence | exact H].
Qed.

Lemma lagrange_nan_key_witness :
  Exists (fun q : point => fst q = NaN) [(Num 1, 4); (parseInt1 "x2", 7)] /\
  lagrangeInterpolationAtZero [(Num 1, 4); (parseInt1 "x2", 7)] = Throw RangeError_NaN.
Proof.
  assert (H : Exists (fun q : point => fst q = NaN) [(Num 1, 4); (parseInt1 "x2", 7)])
    by (right; left; reflexivity).
  split; [exact H | exact (lagrange_nan_key _ H)].
Defined.

(** ** convertToDecimal: composition and bounds *)

Lemma chars_append (s1 s2 : string) : chars (s1 ++ s2) = chars s1 ++ chars s2.
Proof.
  unfold chars. induction s1 as [|c s1 IH]; [reflexivity|].
  cbn. rewrite IH. reflexivity.
Qed.

Lemma length_chars (s : string) : List.length (chars s) = String.length s.
Proof.
  unfold chars. induction s as [|c s IH]; [reflexivity|]. cbn. rewrite IH. reflexivity.
Qed.

Lemma fold_digits_acc (b : Z) (ds : list Z) (acc : Z) :
  fold_left (fun a d => a * b + d) ds acc =
    acc * b ^ Z.of_nat (List.length ds) + positional b ds.
Proof.
  unfold positional. revert acc. induction ds as [|d ds IH]; intros acc.
  - cbn. ring.
  - cbn [fold_left List.length]. rewrite (IH (acc * b + d)), (IH (0 * b + d)).
    rewrite Nat2Z.inj_succ, Z.pow_succ_r by lia. ring.
Qed.

Lemma convertToDecimal_ok (s : string) (b v : Z) :
  2 <= b <= 36 -> convertToDecimal s (Num b) = Ok v ->
  forallb (is_digit_in b) (chars s) = true /\
  v = positional b (map digit_or_zero (chars s)).
Proof.
  intros Hb H. unfold convertToDecimal in H. fold (chars s) in H.
  rewrite reduce_digits_spec in H by exact Hb. fold (positional b (map digit_or_zero (chars s))) in H.
  destruct (forallb (is_digit_in b) (chars s)); [|discriminate].
  injection H as <-. split; reflexivity.
Qed.

Lemma convertToDecimal_of_digits (s : string) (b : Z) :
  2 <= b <= 36 -> forallb (is_digit_in b) (chars s) = true ->
  convertToDecimal s (Num b) = Ok (positional b (map digit_or_zero (chars s))).
Proof.
  intros Hb H. unfold convertToDecimal. fold (chars s).
  rewrite reduce_digits_spec by exact Hb. rewrite H. reflexivity.
Qed.

(** Decoding a concatenation: the value of [s1 ++ s2] is the value of [s1]
    shifted by the length of [s2], plus the value of [s2]. *)
Theorem convertToDecimal_append (s1 s2 : string) (b v1 v2 : Z) :
  2 <= b <= 36 ->
  convertToDecimal s1 (Num b) = Ok v1 ->
  convertToDecimal s2 (Num b) = Ok v2 ->
  convertToDecimal (s1 ++ s2) (Num b) =
    Ok (v1 * b ^ Z.of_nat (String.length s2) + v2).
Proof.
  intros Hb H1 H2.
  apply convertToDecimal_ok in H1 as [Hd1 ->]; [|exact Hb].
  apply convertToDecimal_ok in H2 as [Hd2 ->]; [|exact Hb].
  rewrite convertToDecimal_of_digits; [|exact Hb|].
  - f_equal. rewrite chars_append, map_app. unfold positional at 1.
    rewrite fold_left_app. fold (positional b (map digit_or_zero (chars s1))).
    rewrite fold_digits_acc, length_map, length_chars. reflexivity.
  - rewrite chars_append, forallb_app, Hd1, Hd2. reflexivity.
Qed.

Lemma convertToDecimal_append_witness :
  2 <= 16 <= 36 /\
  convertToDecimal "1f" (Num 16) = Ok 31 /\
  convertToDecimal "a0" (Num 16) = Ok 160 /\
  convertToDecimal ("1f" ++ "a0") (Num 16) =
    Ok (31 * 16 ^ Z.of_nat (String.length "a0") + 160).
Proof.
  assert (Hb : 2 <= 16 <= 36) by lia.
  assert (H1 : convertToDecimal "1f" (Num 16) = Ok 31) by reflexivity.
  assert (H2 : convertToDecimal "a0" (Num 16) = Ok 160) by reflexivity.
  repeat (split; [assumption|]).
  exact (convertToDecimal_append "1f" "a0" 16 31 160 Hb H1 H2).
Defined.

Lemma digit_or_zero_bound (b : Z) (c : ascii) :
  is_digit_in b c = true -> 0 <= digit_or_zero c < b.
Proof.
  unfold is_digit_in, digit_or_zero, digit_value.
  destruct ((48 <=? nat_of_ascii c) && (nat_of_ascii c <=? 57))%nat eqn:E1.
  { apply andb_prop in E1 as [E _]. apply Nat.leb_le in E.
    intros H. apply Z.ltb_lt in H. lia. }
  destruct ((97 <=? nat_of_ascii c) && (nat_of_ascii c <=? 122))%nat eqn:E2.
  { apply andb_prop in E2 as [E _]. apply Nat.leb_le in E.
    intros H. apply Z.ltb_lt in H. lia. }
  destruct ((65 <=? nat_of_ascii c) && (nat_of_ascii c <=? 90))%nat eqn:E3.
  { apply andb_prop in E3 as [E _]. apply Nat.leb_le in E.
    intros H. apply Z.ltb_lt in H. lia. }
  discriminate.
Qed.

Lemma positional_bound (b : Z) (cs : list ascii) :
  2 <= b -> forallb (is_digit_in b) cs = true ->
  0 <= positional b (map digit_or_zero cs) < b ^ Z.of_nat (List.length cs).
Proof.
  intros Hb. induction cs as [|c cs IH] using rev_ind; intros H.
  - cbn. lia.
  - rewrite forallb_app in H. apply andb_prop in H as [Hcs Hc].
    cbn [forallb] in Hc. rewrite andb_true_r in Hc.
    specialize (IH Hcs). pose proof (digit_or_zero_bound b c Hc) as Hd.
    rewrite map_app. unfold positional. rewrite fold_left_app. cbn [map fold_left].
    fold (positional b (map digit_or_zero cs)).
    rewrite length_app. cbn [List.length].
    replace (Z.of_nat (List.length cs + 1)) with (Z.succ (Z.of_nat (List.length cs))) by lia.
    rewrite Z.pow_succ_r by lia. nia.
Qed.

(** A decoded value is non-negative and below [base ^ length]. *)
Theorem convertToDecimal_bound (s : string) (b v : Z) :
  2 <= b <= 36 -> convertToDecimal s (Num b) = Ok v ->
  0 <= v < b ^ Z.of_nat (String.length s).
Proof.
  intros Hb H. apply convertToDecimal_ok in H as [Hd ->]; [|exact Hb].
  rewrite <- length_chars. apply positional_bound; [lia | exact Hd].
Qed.

Lemma convertToDecimal_bound_witness :
  2 <= 2 <= 36 /\ convertToDecimal "111" (Num 2) = Ok 7 /\
  0 <= 7 < 2 ^ Z.of_nat (String.length "111").
Proof.
  assert (Hb : 2 <= 2 <= 36) by lia.
  assert (H : convertToDecimal "111" (Num 2) = Ok 7) by reflexivity.
  split; [exact Hb|]. split; [exact H|].
  exact (convertToDecimal_bound "111" 2 7 Hb H).
Defined.

(** ** convertToDecimal on a base that is no base *)

Lemma ToInt32_small (b : Z) : - 2 ^ 31 <= b < 2 ^ 31 -> ToInt32 (Num b) = b.
Proof.
  intros Hb. unfold ToInt32.
  destruct (Z.lt_ge_cases b 0) as [Hneg|Hpos].
  - replace (b mod 2 ^ 32) with (b + 2 ^ 32).
    + destruct (Z.leb_spec (2 ^ 31) (b + 2 ^ 32)); lia.
    + apply (Z.mod_unique b (2 ^ 32) (-1)); lia.
  - rewrite Z.mod_small by lia. destruct (Z.leb_spec (2 ^ 31) b); lia.
Qed.

Lemma parseInt_bad_radix (l : list ascii) (b : Z) :
  - 2 ^ 31 <= b < 2 ^ 31 -> b <> 0 -> b < 2 \/ 36 < b ->
  parseInt_chars l (Num b) = NaN.
Proof.
  intros Hb H0 Hout. unfold parseInt_chars.
  destruct (strip_sign (drop_white_space l)) as [sign S1].
  rewrite (ToInt32_small b Hb).
  destruct (Z.eqb_spec b 0) as [E|_]; [contradiction|]. cbn [negb andb].
  destruct (Z.ltb_spec b 2), (Z.ltb_spec 36 b); try reflexivity. lia.
Qed.

(** [main.js] does not check the base: with a base that [parseInt] could not
    read, or an integer base other than 0 outside 2..36, every nonempty
    value ends in the RangeError of [BigInt(NaN)]. *)
Theorem convertToDecimal_bad_base (s : string) :
  s <> EmptyString ->
  convertToDecimal s NaN = Throw RangeError_NaN /\
  (forall b, - 2 ^ 31 <= b < 2 ^ 31 -> b <> 0 -> b < 2 \/ 36 < b ->
     convertToDecimal s (Num b) = Throw RangeError_NaN).
Proof.
  intros Hs. destruct s as [|c s]; [contradiction|]. split.
  - reflexivity.
  - intros b Hb H0 Hout. unfold convertToDecimal.
    cbn [list_ascii_of_string reduce_digits]. unfold convert_step.
    cbn [BigInt_of_number bind]. rewrite parseInt_bad_radix by assumption.
    reflexivity.
Qed.

Lemma convertToDecimal_bad_base_witness :
  "101"%string <> EmptyString /\
  convertToDecimal "101" NaN = Throw RangeError_NaN /\
  convertToDecimal "101" (Num 1) = Throw RangeError_NaN /\
  convertToDecimal "101" (Num 37) = Throw RangeError_NaN.
Proof.
  assert (Hs : "101"%string <> EmptyString) by discriminate.
  destruct (convertToDecimal_bad_base "101" Hs) as [Hnan Hb].
  split; [exact Hs|]. split; [exact Hnan|].
  split; apply Hb; lia.
Defined.

Lemma parseInt_radix_zero (c : ascii) :
  is_digit_in 10 c = true -> parseInt_chars [c] (Num 0) = Num (digit_or_zero c).
Proof.
  destruct c as [[] [] [] [] [] [] [] []]; intros H; try discriminate H; reflexivity.
Qed.

Lemma last_cons_default (l : list Z) (d acc : Z) : last (d :: l) acc = last l d.
Proof.
  revert d acc. induction l as [|a l IH]; intros d acc; [reflexivity|].
  change (last (d :: a :: l) acc) with (last (a :: l) acc).
  rewrite (IH a acc). symmetry. apply IH.
Qed.

Lemma reduce_digits_zero (l : list ascii) (acc : Z) :
  forallb (is_digit_in 10) l = true ->
  reduce_digits (Num 0) l acc = Ok (last (map digit_or_zero l) acc).
Proof.
  revert acc. induction l as [|c l IH]; intros acc H; [reflexivity|].
  cbn [forallb] in H. apply andb_prop in H as [Hc Hl].
  cbn [reduce_digits]. unfold convert_step. cbn [BigInt_of_number bind].
  rewrite (parseInt_radix_zero c Hc). cbn [BigInt_of_number bind].
  rewrite (IH _ Hl), Z.mul_0_r, Z.add_0_l. cbn [map].
  rewrite last_cons_default. reflexivity.
Qed.

(** With the base 0 no error is raised on decimal digits: [parseInt] reads
    each digit in radix 10, the accumulator is multiplied by 0, and the value
    is that of the last digit alone. *)
Theorem convertToDecimal_base_zero (s : string) :
  forallb (is_digit_in 10) (chars s) = true ->
  convertToDecimal s (Num 0) = Ok (last (map digit_or_zero (chars s)) 0).
Proof. intros H. apply reduce_digits_zero. exact H. Qed.

Lemma convertToDecimal_base_zero_witness :
  forallb (is_digit_in 10) (chars "907") = true /\
  convertToDecimal "907" (Num 0) = Ok 7.
Proof.
  assert (H : forallb (is_digit_in 10) (chars "907") = true) by reflexivity.
  split; [exact H | exact (convertToDecimal_base_zero "907" H)].
Defined.

(** ** decodeYValue: what BigInt reads *)

Lemma digit_not_white_space (c : ascii) :
  is_digit_in 10 c = true -> is_white_space c = false.
Proof.
  destruct c as [[] [] [] [] [] [] [] []]; intros H; try discriminate H; reflexivity.
Qed.

Lemma drop_white_space_digits (l : list ascii) :
  forallb (is_digit_in 10) l = true -> drop_white_space l = l.
Proof.
  destruct l as [|c l]; [reflexivity|]. cbn [forallb]. intros H.
  apply andb_prop in H as [Hc _]. cbn [drop_white_space].
  rewrite (digit_not_white_space c Hc). reflexivity.
Qed.

Lemma forallb_rev {A : Type} (f : A -> bool) (l : list A) :
  forallb f (rev l) = forallb f l.
Proof.
  induction l as [|a l IH]; [reflexivity|].
  cbn [rev forallb]. rewrite forallb_app, IH. cbn [forallb].
  rewrite andb_true_r. apply andb_comm.
Qed.

Lemma trim_digits (l : list ascii) :
  forallb (is_digit_in 10) l = true -> trim l = l.
Proof.
  intros H. unfold trim. rewrite (drop_white_space_digits l H).
  rewrite drop_white_space_digits by (rewrite forallb_rev; exact H).
  apply rev_involutive.
Qed.

Lemma all_digits_spec (R : Z) (l : list ascii) :
  forallb (is_digit_in R) l = true -> all_digits R l = Some (map digit_or_zero l).
Proof.
  induction l as [|c l IH]; [reflexivity|]. cbn [forallb]. intros H.
  apply andb_prop in H as [Hc Hl]. cbn [all_digits map].
  rewrite radix_digit_spec, Hc, (IH Hl). reflexivity.
Qed.

Lemma StringToBigInt_decimal (l : list ascii) :
  l <> [] -> forallb (is_digit_in 10) l = true ->
  StringToBigInt l = Some (positional 10 (map digit_or_zero l)).
Proof.
  intros Hne H. unfold StringToBigInt. rewrite (trim_digits l H).
  assert (Hlit : literal_digits 10 l = Some (positional 10 (map digit_or_zero l))).
  { unfold literal_digits. destruct l; [contradiction|].
    rewrite (all_digits_spec 10 _ H). reflexivity. }
  rewrite <- Hlit.
  destruct l as [|c l]; [contradiction|].
  cbn [forallb] in H. apply andb_prop in H as [Hc Hl].
  destruct c as [[] [] [] [] [] [] [] []]; try discriminate Hc; try reflexivity.
  destruct l as [|c2 l]; [reflexivity|].
  cbn [forallb] in Hl. apply andb_prop in Hl as [Hc2 _].
  destruct c2 as [[] [] [] [] [] [] [] []]; try discriminate Hc2; reflexivity.
Qed.

(** [decodeYValue] reads its value in decimal whatever base it is given: on
    a nonempty string of decimal digits it returns what [convertToDecimal]
    returns for base 10. *)
Theorem decodeYValue_reads_decimal (s : string) (b : Z) :
  s <> EmptyString -> forallb (is_digit_in 10) (chars s) = true ->
  decodeYValue s b = convertToDecimal s (Num 10).
Proof.
  intros Hs H. rewrite convertToDecimal_of_digits by (lia || exact H).
  unfold decodeYValue, BigInt_of_string. fold (chars s).
  rewrite StringToBigInt_decimal; [reflexivity | | exact H].
  destruct s; [contradiction | discriminate].
Qed.

Lemma decodeYValue_reads_decimal_witness :
  "213"%string <> EmptyString /\
  forallb (is_digit_in 10) (chars "213") = true /\
  decodeYValue "213" 4 = convertToDecimal "213" (Num 10).
Proof.
  assert (Hs : "213"%string <> EmptyString) by discriminate.
  assert (H : forallb (is_digit_in 10) (chars "213") = true) by reflexivity.
  split; [exact Hs|]. split; [exact H|].
  exact (decodeYValue_reads_decimal "213" 4 Hs H).
Defined.

Lemma drop_white_space_blank (l : list ascii) :
  forallb is_white_space l = true -> drop_white_space l = [].
Proof.
  induction l as [|c l IH]; [reflexivity|]. cbn [forallb]. intros H.
  apply andb_prop in H as [Hc Hl]. cbn [drop_white_space]. rewrite Hc. exact (IH Hl).
Qed.

(** An empty or blank value is not a decoding failure: [decodeYValue]
    returns 0, so the share counts as valid with y = 0. *)
Theorem decodeYValue_blank (s : string) (b : Z) :
  forallb is_white_space (chars s) = true -> decodeYValue s b = Ok 0.
Proof.
  intros H. unfold decodeYValue, BigInt_of_string, StringToBigInt, trim.
  fold (chars s). rewrite (drop_white_space_blank _ H). reflexivity.
Qed.

Lemma decodeYValue_blank_witness :
  forallb is_white_space (chars "  ") = true /\ decodeYValue "  " 16 = Ok 0.
Proof.
  assert (H : forallb is_white_space (chars "  ") = true) by reflexivity.
  split; [exact H | exact (decodeYValue_blank "  " 16 H)].
Defined.

(** ** Sorting by a key *)

Section SortByKey.
Context {A : Type} (sort_key : A -> Z).

Let cmp (a b : A) : Z := sort_key a - sort_key b.
Let le_key (a b : A) : Prop := sort_key a <= sort_key b.

Lemma insert_by_perm (a : A) (l : list A) :
  Permutation (insert_by cmp a l) (a :: l).
Proof.
  induction l as [|b l IH]; [apply Permutation_refl|].
  cbn [insert_by]. destruct (cmp a b <=? 0); [apply Permutation_refl|].
  transitivity (b :: a :: l); [apply perm_skip; exact IH | apply perm_swap].
Qed.

Lemma sort_by_perm (l : list A) : Permutation (sort_by cmp l) l.
Proof.
  induction l as [|a l IH]; [apply Permutation_refl|].
  cbn [sort_by]. rewrite insert_by_perm. apply perm_skip. exact IH.
Qed.

Lemma insert_by_sorted (a : A) (l : list A) :
  StronglySorted le_key l -> StronglySorted le_key (insert_by cmp a l).
Proof.
  induction l as [|b l IH]; intros Hs.
  - constructor; constructor.
  - cbn [insert_by]. apply StronglySorted_inv in Hs as [Hs Hb].
    destruct (Z.leb_spec (cmp a b) 0) as [Hle|Hgt].
    + constructor; [constructor; assumption|].
      constructor; [unfold le_key, cmp in *; lia|].
      eapply Forall_impl; [|exact Hb]. intros c Hc. unfold le_key, cmp in *. lia.
    + constructor; [apply IH; exact Hs|].
      eapply Permutation_Forall; [apply Permutation_sym, insert_by_perm|].
      constructor; [unfold le_key, cmp in *; lia | exact Hb].
Qed.

Lemma sort_by_sorted (l : list A) : StronglySorted le_key (sort_by cmp l).
Proof.
  induction l as [|a l IH]; [constructor|]. cbn [sort_by].
  apply insert_by_sorted. exact IH.
Qed.

Lemma key_injective (l : list A) (a b : A) :
  NoDup (map sort_key l) -> In a l -> In b l -> sort_key a = sort_key b -> a = b.
Proof.
  induction l as [|c l IH]; intros Hnd Ha Hb E; [contradiction|].
  cbn [map] in Hnd. inversion Hnd as [|? ? Hnotin Hnd']; subst.
  destruct Ha as [->|Ha], Hb as [->|Hb].
  - reflexivity.
  - exfalso. apply Hnotin. rewrite E. apply in_map. exact Hb.
  - exfalso. apply Hnotin. rewrite <- E. apply in_map. exact Ha.
  - exact (IH Hnd' Ha Hb E).
Qed.

(** Two sorted lists with the same elements and no repeated key are equal. *)
Lemma sorted_perm_unique (l1 l2 : list A) :
  StronglySorted le_key l1 -> StronglySorted le_key l2 ->
  Permutation l1 l2 -> NoDup (map sort_key l1) -> l1 = l2.
Proof.
  revert l2. induction l1 as [|a l1 IH]; intros l2 H1 H2 Hp Hnd.
  - apply Permutation_nil in Hp. congruence.
  - destruct l2 as [|b l2].
    { apply Permutation_sym, Permutation_nil in Hp. discriminate. }
    apply StronglySorted_inv in H1 as [H1 Ha].
    apply StronglySorted_inv in H2 as [H2 Hb].
    assert (Hab : a = b).
    { apply (key_injective (a :: l1)); [exact Hnd | left; reflexivity | |].
      - apply (Permutation_in _ (Permutation_sym Hp)). left. reflexivity.
      - assert (Hin_a : In a (b :: l2))
          by (apply (Permutation_in _ Hp); left; reflexivity).
        assert (Hin_b : In b (a :: l1))
          by (apply (Permutation_in _ (Permutation_sym Hp)); left; reflexivity).
        rewrite Forall_forall in Ha, Hb. unfold le_key in *.
        destruct Hin_a as [->|Hin_a]; [reflexivity|].
        destruct Hin_b as [->|Hin_b]; [reflexivity|].
        specialize (Ha b Hin_b). specialize (Hb a Hin_a). lia. }
    subst b. f_equal. apply IH; [exact H1 | exact H2 | |].
    + exact (Permutation_cons_inv Hp).
    + cbn [map] in Hnd. inversion Hnd; assumption.
Qed.

Lemma sort_by_perm_eq (l1 l2 : list A) :
  Permutation l1 l2 -> NoDup (map sort_key l1) ->
  sort_by cmp l1 = sort_by cmp l2.
Proof.
  intros Hp Hnd. apply sorted_perm_unique; try apply sort_by_sorted.
  - rewrite !sort_by_perm. exact Hp.
  - eapply Permutation_NoDup; [|exact Hnd].
    apply Permutation_map, Permutation_sym, sort_by_perm.
Qed.

Lemma length_sort_by (l : list A) : List.length (sort_by cmp l) = List.length l.
Proof. apply Permutation_length, sort_by_perm. Qed.
End SortByKey.

(** ** shamir.js: what a run can report *)

Lemma BigInt_of_string_error (s : string) (e : error) :
  BigInt_of_string s = Throw e -> e = SyntaxError_BigInt.
Proof.
  unfold BigInt_of_string. destruct (StringToBigInt _); intros H; [discriminate|].
  injection H as <-. reflexivity.
Qed.

(** The loop over the properties, in one equation: the shares of the
    entries in order and their count, or the SyntaxError of the first key
    that is no BigInt literal. *)
Lemma collect_shares_spec (es : list raw_share) (acc : list share) (cnt : Z) :
  collect_shares es acc cnt =
    if forallb key_parses_b es
    then Ok (acc ++ flat_map entry_share es,
             cnt + Z.of_nat (List.length (flat_map entry_share es)))
    else Throw SyntaxError_BigInt.
Proof.
  revert acc cnt. induction es as [|e es IH]; intros acc cnt.
  - cbn. rewrite app_nil_r, Z.add_0_r. reflexivity.
  - cbn [collect_shares forallb flat_map]. unfold key_parses_b at 1, entry_share at 1 3.
    destruct (String.eqb (key e) "keys"); cbn [orb app List.length].
    { apply IH. }
    destruct (BigInt_of_string (key e)) as [xk|err] eqn:Hk; cbn [bind is_ok andb].
    2:{ apply BigInt_of_string_error in Hk. subst. reflexivity. }
    destruct (base_in_range (parseInt1 (base e))) as [b|]; [|apply IH].
    destruct (decodeYValue (value e) b) as [yv|err]; [|apply IH].
    rewrite IH. destruct (forallb key_parses_b es); [|reflexivity].
    cbn [app List.length]. rewrite <- app_assoc. cbn [app].
    do 2 f_equal. lia.
Qed.

Lemma inner_loop_error (rest : list share) (m j : nat) (xj p num den : Z) (e : error) :
  0 < p -> inner_loop rest m j xj p num den = Throw e -> e = DuplicateX xj.
Proof.
  intros Hp. revert m num den. induction rest as [|s rest IH]; intros m num den H;
    [discriminate|].
  cbn [inner_loop] in H. destruct (j =? m)%nat; [exact (IH _ _ _ H)|].
  rewrite !mod_pos in H by exact Hp. cbn [bind] in H.
  destruct ((x s - xj) mod p =? 0); [injection H as <-; reflexivity|].
  rewrite mod_pos in H by exact Hp. cbn [bind] in H. exact (IH _ _ _ H).
Qed.

Lemma modInverse_loop_error (fuel : nat) (a x0 m : Z) (e : error) :
  0 < m -> modInverse_loop fuel a x0 m = Throw e -> e = NoModularInverse a m.
Proof.
  intros Hm. revert x0. induction fuel as [|fuel IH]; intros x0 H.
  - injection H as <-. reflexivity.
  - cbn [modInverse_loop] in H. destruct (x0 <? m); [|injection H as <-; reflexivity].
    rewrite mod_pos in H by exact Hm. cbn [bind] in H.
    destruct ((a * x0) mod m =? 1); [discriminate | exact (IH _ H)].
Qed.

Lemma outer_loop_error (shares rest : list share) (j : nat) (p secret : Z) (e : error) :
  0 < p -> outer_loop shares rest j p secret = Throw e ->
  (exists xj, e = DuplicateX xj) \/ (exists a, e = NoModularInverse a p).
Proof.
  intros Hp. revert j secret. induction rest as [|s rest IH]; intros j secret H;
    [discriminate|].
  cbn [outer_loop] in H.
  destruct (inner_loop shares 0 j (x s) p 1 1) as [[num den]|e1] eqn:Hin; cbn [bind] in H.
  2:{ injection H as <-. left. exists (x s). exact (inner_loop_error _ _ _ _ _ _ _ _ Hp Hin). }
  destruct (modInverse den p) as [inv|e2] eqn:Hinv; cbn [bind] in H.
  2:{ injection H as <-. right. unfold modInverse in Hinv.
      rewrite mod_pos in Hinv by exact Hp. cbn [bind] in Hinv.
      exists (den mod p). exact (modInverse_loop_error _ _ _ _ _ Hp Hinv). }
  repeat (rewrite mod_pos in H by exact Hp; cbn [bind] in H).
  exact (IH _ _ H).
Qed.

Lemma length_slice0 {A : Type} (k : Z) (l : list A) :
  0 <= k <= Z.of_nat (List.length l) -> Z.of_nat (List.length (slice0 k l)) = k.
Proof.
  intros Hk. unfold slice0. destruct (Z.ltb_spec k 0); [lia|].
  rewrite length_firstn. lia.
Qed.

(** With a positive modulus a run of [processTestCase] reports a secret in
    [0, prime), or the insufficient-shares error with the number of
    surviving shares, or one of five errors: invalid n, invalid k, a key that
    is no BigInt literal, a duplicate x-coordinate, or no modular inverse.
    It never reports a division by zero or the no-shares error. *)
Theorem processTestCase_outcomes (tc : test_case) (prime : Z) :
  0 < prime ->
  match processTestCase tc prime with
  | Reconstructed secretC => 0 <= secretC < prime
  | InsufficientShares validShareCount k =>
      k = keys_k tc /\ validShareCount < k /\
      validShareCount = Z.of_nat (List.length (surviving tc))
  | ErrorProcessing e =>
      e = InvalidN \/ e = InvalidK \/ e = SyntaxError_BigInt \/
      (exists xj, e = DuplicateX xj) \/ (exists a, e = NoModularInverse a prime)
  end.
Proof.
  intros Hp. unfold processTestCase.
  destruct (keys_n tc <? 1); [left; reflexivity|].
  destruct (Z.ltb_spec (keys_k tc) 2) as [|Hk2]; [right; left; reflexivity|].
  destruct (keys_n tc <? keys_k tc); [right; left; reflexivity|]. cbn [orb].
  destruct (collect_shares (entries tc) [] 0) as [[shares c]|err] eqn:Hc.
  2:{ rewrite collect_shares_spec in Hc.
      destruct (forallb key_parses_b (entries tc)); [discriminate|].
      injection Hc as <-. right. right. left. reflexivity. }
  pose proof (collect_shares_count _ _ _ _ _ Hc) as Hcount.
  rewrite collect_shares_spec in Hc.
  destruct (forallb key_parses_b (entries tc)); [|discriminate].
  injection Hc as Hs Hlen. cbn [app] in Hs.
  destruct (Z.ltb_spec c (keys_k tc)) as [Hlt|Hge].
  { unfold surviving. repeat split; [exact Hlt | lia]. }
  destruct (reconstructSecret _ prime) as [r|e] eqn:Hr.
  - unfold reconstructSecret in Hr.
    destruct (List.length _ =? 0)%nat; [discriminate|].
    apply (outer_loop_range _ _ _ prime 0 r) in Hr; [exact Hr | exact Hp | lia].
  - right. right. right. unfold reconstructSecret in Hr.
    destruct (Nat.eqb_spec (List.length (slice0 (keys_k tc)
               (sort_by compare_shares shares))) 0) as [E|_].
    + exfalso.
      assert (Z.of_nat (List.length (slice0 (keys_k tc)
                (sort_by compare_shares shares))) = keys_k tc).
      { apply length_slice0. unfold compare_shares.
        rewrite (length_sort_by x), <- Hs. lia. }
      lia.
    + exact (outer_loop_error _ _ _ _ _ _ Hp Hr).
Qed.

Lemma processTestCase_outcomes_witness :
  0 < 13 /\
  processTestCase sample1 13 = Reconstructed 3 /\ 0 <= 3 < 13.
Proof.
  assert (Hp : 0 < 13) by lia.
  assert (H : processTestCase sample1 13 = Reconstructed 3) by reflexivity.
  split; [exact Hp|]. split; [exact H|].
  pose proof (processTestCase_outcomes sample1 13 Hp) as Ho.
  rewrite H in Ho. exact Ho.
Defined.

(** One key that is no BigInt literal ends the whole run in the SyntaxError,
    however many other shares are valid: [BigInt(key)] is outside the
    [try] that skips a share. *)
Theorem processTestCase_bad_key (tc : test_case) (prime : Z) :
  1 <= keys_n tc -> 2 <= keys_k tc <= keys_n tc ->
  Exists (fun e => key_parses_b e = false) (entries tc) ->
  processTestCase tc prime = ErrorProcessing SyntaxError_BigInt.
Proof.
  intros Hn Hk Hbad. unfold processTestCase.
  destruct (Z.ltb_spec (keys_n tc) 1); [lia|].
  destruct (Z.ltb_spec (keys_k tc) 2); [lia|].
  destruct (Z.ltb_spec (keys_n tc) (keys_k tc)); [lia|]. cbn [orb].
  rewrite collect_shares_spec.
  destruct (forallb key_parses_b (entries tc)) eqn:Hall; [|reflexivity].
  exfalso. rewrite forallb_forall in Hall. apply Exists_exists in Hbad as (e & Hin & He).
  rewrite (Hall e Hin) in He. discriminate.
Qed.

Lemma processTestCase_bad_key_witness :
  Exists (fun e => key_parses_b e = false)
    [mkRaw "1" "10" "4"; mkRaw "2" "10" "7"; mkRaw "x3" "10" "12"] /\
  processTestCase
    (mkCase 3 2 [mkRaw "1" "10" "4"; mkRaw "2" "10" "7"; mkRaw "x3" "10" "12"]) 13
  = ErrorProcessing SyntaxError_BigInt.
Proof.
  assert (H : Exists (fun e => key_parses_b e = false)
                [mkRaw "1" "10" "4"; mkRaw "2" "10" "7"; mkRaw "x3" "10" "12"])
    by (right; right; left; reflexivity).
  split; [exact H|].
  apply (processTestCase_bad_key
           (mkCase 3 2 [mkRaw "1" "10" "4"; mkRaw "2" "10" "7"; mkRaw "x3" "10" "12"]) 13);
    cbn; (lia || exact H).
Defined.

Lemma forallb_perm {A : Type} (f : A -> bool) (l1 l2 : list A) :
  Permutation l1 l2 -> forallb f l1 = forallb f l2.
Proof.
  induction 1 as [|a l1 l2 _ IH|a b l|l1 l2 l3 _ IH1 _ IH2]; cbn [forallb].
  - reflexivity.
  - rewrite IH. reflexivity.
  - destruct (f a), (f b); reflexivity.
  - congruence.
Qed.

(** The order in which the parsed object lists the shares does not matter:
    when the surviving shares have pairwise different x-coordinates, a
    permutation of the entries gives the same report. *)
Theorem processTestCase_order_independent (n k : Z) (es1 es2 : list raw_share)
    (prime : Z) :
  Permutation es1 es2 ->
  NoDup (map x (flat_map entry_share es1)) ->
  processTestCase (mkCase n k es1) prime = processTestCase (mkCase n k es2) prime.
Proof.
  intros Hperm Hnd. unfold processTestCase. cbn [keys_n keys_k entries].
  destruct (n <? 1); [reflexivity|].
  destruct ((k <? 2) || (n <? k)); [reflexivity|].
  rewrite !collect_shares_spec, <- (forallb_perm key_parses_b es1 es2 Hperm).
  destruct (forallb key_parses_b es1); [|reflexivity]. cbn [app].
  assert (Hshares : Permutation (flat_map entry_share es1) (flat_map entry_share es2)).
  { apply Permutation_flat_map. exact Hperm. }
  rewrite <- (Permutation_length Hshares), !Z.add_0_l.
  destruct (_ <? k); [reflexivity|].
  unfold compare_shares.
  rewrite (sort_by_perm_eq x _ _ Hshares Hnd). reflexivity.
Qed.

Lemma processTestCase_order_independent_witness :
  Permutation [mkRaw "1" "10" "4"; mkRaw "2" "10" "7"; mkRaw "3" "10" "12"]
              [mkRaw "3" "10" "12"; mkRaw "1" "10" "4"; mkRaw "2" "10" "7"] /\
  NoDup (map x (flat_map entry_share
                  [mkRaw "1" "10" "4"; mkRaw "2" "10" "7"; mkRaw "3" "10" "12"])) /\
  processTestCase
    (mkCase 3 3 [mkRaw "1" "10" "4"; mkRaw "2" "10" "7"; mkRaw "3" "10" "12"]) 13 =
  processTestCase
    (mkCase 3 3 [mkRaw "3" "10" "12"; mkRaw "1" "10" "4"; mkRaw "2" "10" "7"]) 13.
Proof.
  assert (HP : Permutation [mkRaw "1" "10" "4"; mkRaw "2" "10" "7"; mkRaw "3" "10" "12"]
                 [mkRaw "3" "10" "12"; mkRaw "1" "10" "4"; mkRaw "2" "10" "7"]).
  { apply Permutation_sym.
    apply (Permutation_cons_app [mkRaw "1" "10" "4"; mkRaw "2" "10" "7"] []
             (mkRaw "3" "10" "12")).
    rewrite app_nil_r. apply Permutation_refl. }
  assert (HN : NoDup (map x (flat_map entry_share
                  [mkRaw "1" "10" "4"; mkRaw "2" "10" "7"; mkRaw "3" "10" "12"]))).
  { vm_compute. repeat constructor; cbn; lia. }
  split; [exact HP|]. split; [exact HN|].
  exact (processTestCase_order_independent 3 3 _ _ 13 HP HN).
Defined.

Lemma processTestCase_secret_range (tc : test_case) (prime secretC : Z) :
  0 < prime -> processTestCase tc prime = Reconstructed secretC ->
  0 <= secretC < prime.
Proof.
  intros Hp. unfold processTestCase.
  destruct (keys_n tc <? 1); [discriminate|].
  destruct ((keys_k tc <? 2) || (keys_n tc <? keys_k tc)); [discriminate|].
  destruct (collect_shares (entries tc) [] 0) as [[shares c]|err]; [|discriminate].
  destruct (c <? keys_k tc); [discriminate|].
  destruct (reconstructSecret _ prime) as [r|e] eqn:Hr; [|discriminate].
  intros H. injection H as <-. unfold reconstructSecret in Hr.
  destruct (List.length _ =? 0)%nat; [discriminate|].
  apply (outer_loop_range _ _ _ prime 0 r) in Hr; [exact Hr | exact Hp | lia].
Qed.

(** The click handler runs no reconstruction unless the modulus typed is a
    BigInt literal above 2; every secret it then reports lies in
    [0, modulus). *)
Theorem runButton_click_reports (primeText : string) (json1 json2 : test_case)
    (report1 report2 : outcome) :
  runButton_click primeText json1 json2 = Processed report1 report2 ->
  exists selectedPrime,
    BigInt_of_string primeText = Ok selectedPrime /\ 2 < selectedPrime /\
    forall secretC,
      report1 = Reconstructed secretC \/ report2 = Reconstructed secretC ->
      0 <= secretC < selectedPrime.
Proof.
  unfold runButton_click. intros H.
  destruct (BigInt_of_string primeText) as [p|e]; [|discriminate].
  destruct (Z.leb_spec p 2) as [|Hp]; [discriminate|].
  injection H as <- <-. exists p. split; [reflexivity|]. split; [exact Hp|].
  intros secretC [H|H].
  - apply (processTestCase_secret_range json1 p); [lia | exact H].
  - apply (processTestCase_secret_range json2 p); [lia | exact H].
Qed.

Lemma runButton_click_reports_witness :
  runButton_click "13" sample1 sample1 = Processed (Reconstructed 3) (Reconstructed 3) /\
  exists selectedPrime,
    BigInt_of_string "13" = Ok selectedPrime /\ 2 < selectedPrime /\
    forall secretC,
      Reconstructed 3 = Reconstructed secretC \/ Reconstructed 3 = Reconstructed secretC ->
      0 <= secretC < selectedPrime.
Proof.
  assert (H : runButton_click "13" sample1 sample1 =
              Processed (Reconstructed 3) (Reconstructed 3)) by reflexivity.
  split; [exact H | exact (runButton_click_reports "13" sample1 sample1 _ _ H)].
Defined.

(** ** main.js: what a run can print *)

Lemma reduce_digits_error (base : number) (l : list ascii) (acc : Z) (e : error) :
  reduce_digits base l acc = Throw e -> e = RangeError_NaN.
Proof.
  revert acc. induction l as [|c l IH]; intros acc H; [discriminate|].
  cbn [reduce_digits] in H. unfold convert_step in H.
  destruct base as [|b]; cbn [BigInt_of_number bind] in H;
    [injection H as <-; reflexivity|].
  destruct (parseInt_chars [c] (Num b)) as [|d]; cbn [BigInt_of_number bind] in H;
    [injection H as <-; reflexivity|].
  exact (IH _ H).
Qed.

Lemma parse_loop_bad (es : list raw_share) (points : list point) :
  Exists (fun e => String.eqb (key e) "keys" = false /\
                   is_ok (convertToDecimal (value e) (parseInt1 (base e))) = false) es ->
  parse_loop es points = Throw RangeError_NaN.
Proof.
  intros Hbad. revert points.
  induction es as [|e es IH]; intros points; [inversion Hbad|].
  cbn [parse_loop].
  destruct (String.eqb (key e) "keys") eqn:Hk.
  - apply IH. inversion Hbad as [? ? [H _]|? ? H]; subst; [congruence | exact H].
  - destruct (convertToDecimal (value e) (parseInt1 (base e))) as [yv|err] eqn:Hc;
      cbn [bind].
    + apply IH. inversion Hbad as [? ? [_ H]|? ? H]; subst; [|exact H].
      rewrite Hc in H. discriminate.
    + apply reduce_digits_error in Hc. subst. reflexivity.
Qed.

(** [main.js] skips nothing: on an input whose bases are read as numbers of
    at most 2^53 in absolute value, one share whose value [convertToDecimal]
    cannot read in its base ends the program in the RangeError, whatever [k]
    is and however many other shares are good. *)
Theorem main_secret_bad_share (tc : test_case) :
  Forall (fun e => safe_number (parseInt1 (base e))) (entries tc) ->
  Exists (fun e => String.eqb (key e) "keys" = false /\
                   is_ok (convertToDecimal (value e) (parseInt1 (base e))) = false)
         (entries tc) ->
  main_secret tc = Throw RangeError_NaN.
Proof.
  intros _ H. unfold main_secret, parseInput. rewrite (parse_loop_bad _ _ H). reflexivity.
Qed.

Lemma main_secret_bad_share_witness :
  Forall (fun e => safe_number (parseInt1 (base e)))
         (entries (mkCase 3 2 [mkRaw "1" "10" "4"; mkRaw "2" "10" "7"; mkRaw "3" "2" "12"])) /\
  Exists (fun e => String.eqb (key e) "keys" = false /\
                   is_ok (convertToDecimal (value e) (parseInt1 (base e))) = false)
         (entries (mkCase 3 2 [mkRaw "1" "10" "4"; mkRaw "2" "10" "7"; mkRaw "3" "2" "12"])) /\
  main_secret (mkCase 3 2 [mkRaw "1" "10" "4"; mkRaw "2" "10" "7"; mkRaw "3" "2" "12"])
    = Throw RangeError_NaN.
Proof.
  assert (Hs : Forall (fun e => safe_number (parseInt1 (base e)))
         (entries (mkCase 3 2 [mkRaw "1" "10" "4"; mkRaw "2" "10" "7"; mkRaw "3" "2" "12"])))
    by (repeat constructor; vm_compute; discriminate).
  assert (H : Exists (fun e => String.eqb (key e) "keys" = false /\
                   is_ok (convertToDecimal (value e) (parseInt1 (base e))) = false)
         (entries (mkCase 3 2 [mkRaw "1" "10" "4"; mkRaw "2" "10" "7"; mkRaw "3" "2" "12"])))
    by (right; right; left; split; reflexivity).
  split; [exact Hs|]. split; [exact H | exact (main_secret_bad_share _ Hs H)].
Defined.

Lemma parse_loop_spec (es : list raw_share) (points : list point) :
  parse_loop es points =
    if forallb value_decodes_b es
    then Ok (points ++ flat_map entry_point es)
    else Throw RangeError_NaN.
Proof.
  revert points. induction es as [|e es IH]; intros points.
  - cbn. rewrite app_nil_r. reflexivity.
  - cbn [parse_loop forallb flat_map]. unfold value_decodes_b at 1, entry_point at 1.
    destruct (String.eqb (key e) "keys"); cbn [orb app]; [apply IH|].
    destruct (convertToDecimal (value e) (parseInt1 (base e))) as [yv|err] eqn:Hc;
      cbn [bind is_ok andb].
    + rewrite IH. destruct (forallb value_decodes_b es); [|reflexivity].
      rewrite <- app_assoc. reflexivity.
    + apply reduce_digits_error in Hc. subst. reflexivity.
Qed.

Lemma insert_by_ext {A : Type} (cmp cmp' : A -> A -> Z) (a : A) (l : list A) :
  (forall b, In b l -> cmp a b = cmp' a b) ->
  insert_by cmp a l = insert_by cmp' a l.
Proof.
  induction l as [|b l IH]; intros H; [reflexivity|].
  cbn [insert_by]. rewrite (H b (or_introl eq_refl)).
  destruct (cmp' a b <=? 0); [reflexivity|].
  f_equal. apply IH. intros c Hc. apply H. right. exact Hc.
Qed.

Lemma sort_by_numeric (l : list point) :
  Forall (fun q => fst q <> NaN) l ->
  sort_by compare_points l = sort_by (fun a b => point_x a - point_x b) l.
Proof.
  induction 1 as [|q l Hq Hl IH]; [reflexivity|].
  cbn [sort_by]. rewrite IH. apply insert_by_ext.
  intros b Hb.
  assert (Hbn : fst b <> NaN).
  { rewrite Forall_forall in Hl. apply Hl.
    apply (Permutation_in _ (sort_by_perm point_x l)). exact Hb. }
  unfold compare_points, point_x.
  destruct (fst q); [contradiction|]. destruct (fst b); [contradiction|]. reflexivity.
Qed.

(** The order in which the parsed object lists the shares does not matter
    to [main.js] either: when the keys and the bases are read as numbers of
    at most 2^53 in absolute value and the keys as pairwise different
    integers, a permutation of the entries prints the same secret or ends in
    the same error. *)
Theorem main_secret_order_independent (n k : Z) (es1 es2 : list raw_share) :
  Permutation es1 es2 ->
  Forall (fun e => safe_number (parseInt1 (key e)) /\
                   safe_number (parseInt1 (base e))) es1 ->
  Forall (fun q => fst q <> NaN) (flat_map entry_point es1) ->
  NoDup (map fst (flat_map entry_point es1)) ->
  main_secret (mkCase n k es1) = main_secret (mkCase n k es2).
Proof.
  intros Hperm _ Hnum Hnd. unfold main_secret, parseInput. cbn [keys_k entries].
  rewrite !parse_loop_spec, <- (forallb_perm value_decodes_b es1 es2 Hperm).
  destruct (forallb value_decodes_b es1); [|reflexivity]. cbn [app bind].
  assert (Hpts : Permutation (flat_map entry_point es1) (flat_map entry_point es2)).
  { apply Permutation_flat_map. exact Hperm. }
  assert (Hnum2 : Forall (fun q => fst q <> NaN) (flat_map entry_point es2)).
  { eapply Permutation_Forall; [exact Hpts | exact Hnum]. }
  rewrite (sort_by_numeric _ Hnum), (sort_by_numeric _ Hnum2).
  rewrite (sort_by_perm_eq point_x _ _ Hpts); [reflexivity|].
  apply (NoDup_map_inv Num). rewrite map_map.
  replace (map (fun q => Num (point_x q)) (flat_map entry_point es1))
    with (map fst (flat_map entry_point es1)); [exact Hnd|].
  apply map_ext_in. intros q Hq. rewrite Forall_forall in Hnum.
  specialize (Hnum q Hq). unfold point_x. destruct (fst q); [contradiction | reflexivity].
Qed.

Lemma main_secret_order_independent_witness :
  Permutation [mkRaw "1" "10" "4"; mkRaw "2" "2" "111"; mkRaw "3" "10" "12"]
              [mkRaw "3" "10" "12"; mkRaw "1" "10" "4"; mkRaw "2" "2" "111"] /\
  Forall (fun e => safe_number (parseInt1 (key e)) /\
                   safe_number (parseInt1 (base e)))
         [mkRaw "1" "10" "4"; mkRaw "2" "2" "111"; mkRaw "3" "10" "12"] /\
  main_secret (mkCase 3 3 [mkRaw "1" "10" "4"; mkRaw "2" "2" "111"; mkRaw "3" "10" "12"]) =
  main_secret (mkCase 3 3 [mkRaw "3" "10" "12"; mkRaw "1" "10" "4"; mkRaw "2" "2" "111"]).
Proof.
  assert (HP : Permutation [mkRaw "1" "10" "4"; mkRaw "2" "2" "111"; mkRaw "3" "10" "12"]
                 [mkRaw "3" "10" "12"; mkRaw "1" "10" "4"; mkRaw "2" "2" "111"]).
  { apply Permutation_sym.
    apply (Permutation_cons_app [mkRaw "1" "10" "4"; mkRaw "2" "2" "111"] []
             (mkRaw "3" "10" "12")).
    rewrite app_nil_r. apply Permutation_refl. }
  assert (Hs : Forall (fun e => safe_number (parseInt1 (key e)) /\
                   safe_number (parseInt1 (base e)))
         [mkRaw "1" "10" "4"; mkRaw "2" "2" "111"; mkRaw "3" "10" "12"])
    by (repeat constructor; vm_compute; discriminate).
  split; [exact HP|]. split; [exact Hs|].
  apply (main_secret_order_independent 3 3 _ _ HP Hs).
  - vm_compute. repeat constructor; discriminate.
  - vm_compute. repeat constructor; cbn; intuition discriminate.
Defined.

(** ** reconstructSecret needs a modulus above 1 *)

(** With a modulus of 1 or less, negative ones included, no share list
    yields a secret: the search for the inverse has no candidate. *)
Theorem reconstructSecret_small_modulus (shares : list share) (m r : Z) :
  m <= 1 -> reconstructSecret shares m <> Ok r.
Proof.
  intros Hm H. unfold reconstructSecret in H.
  destruct shares as [|s rest]; [discriminate|].
  cbn [List.length Nat.eqb outer_loop] in H.
  destruct (inner_loop (s :: rest) 0 0 (x s) m 1 1) as [[num den]|e]; cbn [bind] in H;
    [|discriminate].
  destruct (modInverse den m) as [inv|e] eqn:Hinv; cbn [bind] in H; [|discriminate].
  apply modInverse_char in Hinv. lia.
Qed.

Lemma reconstructSecret_small_modulus_witness :
  1 <= 1 /\ reconstructSecret [mkShare 1 4; mkShare 2 7] 1 <> Ok 0 /\
  reconstructSecret [mkShare 1 4] (-7) <> Ok 4.
Proof.
  split; [lia|]. split.
  - apply reconstructSecret_small_modulus. lia.
  - apply reconstructSecret_small_modulus. lia.
Defined.

(** ** The exact interpolation on the keys 1, 2, ..., k *)

Lemma zrange_snoc (a : Z) (n : nat) :
  zrange a (S n) = zrange a n ++ [a + Z.of_nat n].
Proof.
  revert a. induction n as [|n IH]; intros a.
  - cbn. rewrite Z.add_0_r. reflexivity.
  - change (zrange a (S (S n))) with (a :: zrange (a + 1) (S n)).
    rewrite IH. cbn [zrange app]. do 3 f_equal. lia.
Qed.

Lemma length_zrange (a : Z) (n : nat) : List.length (zrange a n) = n.
Proof. revert a. induction n as [|n IH]; intros a; cbn; [|rewrite IH]; reflexivity. Qed.

Lemma in_zrange (a : Z) (n : nat) (b : Z) :
  In b (zrange a n) -> a <= b < a + Z.of_nat n.
Proof.
  revert a. induction n as [|n IH]; intros a H; [contradiction|].
  destruct H as [<-|H]; [lia|]. apply IH in H. lia.
Qed.

Lemma NoDup_zrange (a : Z) (n : nat) : NoDup (zrange a n).
Proof.
  revert a. induction n as [|n IH]; intros a; cbn [zrange]; constructor.
  - intros H. apply in_zrange in H. lia.
  - apply IH.
Qed.

Lemma zrange_split (n : nat) (a b : Z) (r1 r2 : list Z) :
  zrange a n = r1 ++ b :: r2 ->
  r1 = zrange a (List.length r1) /\ b = a + Z.of_nat (List.length r1) /\
  r2 = zrange (b + 1) (List.length r2).
Proof.
  revert a r1. induction n as [|n IH]; intros a r1 H.
  - destruct r1; discriminate.
  - destruct r1 as [|c r1]; cbn [zrange app] in H; injection H as Hc H.
    + subst. cbn [List.length]. rewrite length_zrange, Z.add_0_r. repeat split.
    + subst c. destruct (IH _ _ H) as (H1 & H2 & H3).
      cbn [List.length zrange]. repeat split; [f_equal; exact H1 | lia | exact H3].
Qed.

Lemma prodZ_app (l1 l2 : list Z) : prodZ (l1 ++ l2) = prodZ l1 * prodZ l2.
Proof.
  induction l1 as [|a l1 IH].
  - unfold prodZ at 2. cbn [app fold_right]. ring.
  - cbn [app prodZ fold_right].
    fold (prodZ (l1 ++ l2)). fold (prodZ l1). rewrite IH. ring.
Qed.

Lemma prodZ_opp (l : list Z) : prodZ (map Z.opp l) = alt_sign l * prodZ l.
Proof.
  induction l as [|a l IH]; cbn [map prodZ fold_right alt_sign]; [ring|].
  fold (prodZ (map Z.opp l)). fold (prodZ l). rewrite IH. ring.
Qed.

(** The differences to the keys below: [m, m - 1, ..., 1]. *)
Lemma prodZ_below (n : nat) (a : Z) :
  prodZ (map (fun j => a + Z.of_nat n - j) (zrange a n)) = prodZ (zrange 1 n).
Proof.
  revert a. induction n as [|n IH]; intros a; [reflexivity|].
  rewrite (zrange_snoc 1 n), prodZ_app.
  cbn [zrange map prodZ fold_right].
  fold (prodZ (map (fun j => a + Z.of_nat (S n) - j) (zrange (a + 1) n))).
  replace (map (fun j => a + Z.of_nat (S n) - j) (zrange (a + 1) n))
    with (map (fun j => (a + 1) + Z.of_nat n - j) (zrange (a + 1) n))
    by (apply map_ext; intros j; f_equal; lia).
  rewrite IH. lia.
Qed.

(** The differences to the keys above: [-1, -2, ..., -n]. *)
Lemma map_above (n : nat) (a d : Z) :
  map (fun j => a - j) (zrange (a + d) n) = map Z.opp (zrange d n).
Proof.
  revert d. induction n as [|n IH]; intros d; [reflexivity|].
  cbn [zrange map]. f_equal; [lia|].
  replace (a + d + 1) with (a + (d + 1)) by lia. apply IH.
Qed.

(** A product of [n] consecutive integers, from a natural number on, is
    divisible by that of 1, ..., n. *)
Lemma range_product_divides (n a : nat) :
  (prodZ (zrange 1 n) | prodZ (zrange (Z.of_nat a) n)).
Proof.
  revert a. induction n as [|n IHn]; intros a; [apply Z.divide_refl|].
  induction a as [|a IHa].
  - cbn [zrange prodZ fold_right Z.of_nat]. rewrite Z.mul_0_l. apply Z.divide_0_r.
  - assert (E : prodZ (zrange (Z.of_nat (S a)) (S n)) =
                prodZ (zrange (Z.of_nat a) (S n))
                + Z.of_nat (S n) * prodZ (zrange (Z.of_nat (S a)) n)).
    { rewrite (zrange_snoc (Z.of_nat (S a)) n), prodZ_app.
      cbn [zrange prodZ fold_right].
      fold (prodZ (zrange (Z.of_nat a + 1) n)).
      replace (Z.of_nat a + 1) with (Z.of_nat (S a)) by lia.
      fold (prodZ (@nil Z)). cbn [prodZ fold_right]. lia. }
    assert (F : prodZ (zrange 1 (S n)) = Z.of_nat (S n) * prodZ (zrange 1 n)).
    { rewrite (zrange_snoc 1 n), prodZ_app. unfold prodZ at 2. cbn [fold_right]. lia. }
    rewrite E. apply Z.divide_add_r; [exact IHa|].
    rewrite F. apply Z.mul_divide_mono_l. apply IHn.
Qed.

Lemma alt_sign_length (l1 l2 : list Z) :
  List.length l1 = List.length l2 -> alt_sign l1 = alt_sign l2.
Proof.
  revert l2. induction l1 as [|a l1 IH]; intros [|b l2] H; try discriminate;
    [reflexivity|].
  cbn [alt_sign]. f_equal. apply IH. cbn in H. lia.
Qed.

Lemma consecutive_keys_divide (k : nat) (r1 r2 : list Z) (a : Z) :
  zrange 1 k = r1 ++ a :: r2 ->
  (den_ex a (r1 ++ r2) 1 | num_ex (r1 ++ r2) 1).
Proof.
  intros H. destruct (zrange_split _ _ _ _ _ H) as (H1 & Ha & H2).
  set (m := List.length r1) in *. set (n := List.length r2) in *.
  rewrite den_ex_prod, num_ex_prod, !Z.mul_1_l, !map_app, !prodZ_app.
  rewrite !prodZ_opp.
  assert (Hbelow : prodZ (map (fun xj => a - xj) r1) = prodZ r1).
  { rewrite H1 at 1. rewrite Ha. rewrite (prodZ_below m 1). rewrite <- H1. reflexivity. }
  assert (Habove : prodZ (map (fun xj => a - xj) r2) = alt_sign r2 * prodZ (zrange 1 n)).
  { rewrite H2 at 1. rewrite (map_above n a 1), prodZ_opp.
    f_equal. apply alt_sign_length. rewrite length_zrange. reflexivity. }
  rewrite Hbelow, Habove.
  assert (Hdiv : (prodZ (zrange 1 n) | prodZ r2)).
  { rewrite H2. replace (a + 1) with (Z.of_nat (S (S m))) by lia.
    apply range_product_divides. }
  destruct Hdiv as [c Hc]. rewrite Hc.
  exists (alt_sign r1 * c). ring.
Qed.

(** On the keys 1, 2, ..., k no term is truncated (each is an integer
    multiple of a binomial coefficient), so [main.js] is right on them: for
    a polynomial with at most [k] integer coefficients the exact
    interpolator returns [P(0)]. *)
Theorem lagrange_consecutive_keys (cs : list Z) (k : nat) :
  (List.length cs <= k)%nat ->
  lagrangeInterpolationAtZero (points_of cs (zrange 1 k)) = Ok (peval cs 0).
Proof.
  intros Hlen. apply lagrange_exact_core.
  - apply NoDup_zrange.
  - rewrite length_zrange. exact Hlen.
  - intros r1 a r2 H. apply Z.divide_mul_r.
    exact (consecutive_keys_divide k r1 r2 a H).
Qed.

Lemma lagrange_consecutive_keys_witness :
  (List.length [3; 0; 1]%Z <= 3)%nat /\
  lagrangeInterpolationAtZero (points_of [3; 0; 1] (zrange 1 3)) = Ok 3.
Proof.
  assert (H : (List.length [3; 0; 1]%Z <= 3)%nat) by (cbn; lia).
  split; [exact H | exact (lagrange_consecutive_keys [3; 0; 1] 3 H)].
Defined.
